(** * Hospital patient scheduler: the greedy activity selection of app.py

    A shallow embedding of [src/app.py]: the scheduler [greedy_schedule],
    and the request handlers [add_patient], [clear_patients],
    [auto_generate] and [schedule] over the process-wide list [patients].

    Python integers are unbounded, so they are [Z].  A patient is the
    tuple [(name, start, end)] the source builds and unpacks. *)

From stdpp Require Import base decidable option list sorting gmap strings pretty.
From Stdlib Require Import ZArith Lia Ascii.
From Stdlib Require Import Floats.SpecFloat.

Local Open Scope Z_scope.

(** ** Data model *)

(** [(name, start, end)], as appended by [add_patient] and [auto_generate]. *)
Definition patient_t : Type := string * Z * Z.

Definition p_name (p : patient_t) : string := p.1.1.
Definition p_start (p : patient_t) : Z := p.1.2.
(** [x[2]], the sort key of [greedy_schedule]. *)
Definition p_end (p : patient_t) : Z := p.2.

(** The data-model invariant [start < end]. *)
Definition valid (p : patient_t) : Prop := p_start p < p_end p.

(** ** Python's [sorted(l, key=...)]

    [sorted] returns a new list and is guaranteed stable.  The model is
    the stable insertion sort: an element is put before the first element
    whose key is not smaller, so that an element keeps its place before
    the later elements of the input with the same key.  [sorted_unique]
    below shows that every stable sort computes the same list. *)
Section Sorted.
Context {A : Type} (key : A → Z).

Fixpoint insert_sorted (x : A) (l : list A) : list A :=
  match l with
  | [] => [x]
  | y :: l' =>
      if decide (key x ≤ key y) then x :: y :: l'
      else y :: insert_sorted x l'
  end.

Definition sorted (l : list A) : list A := foldr insert_sorted [] l.

(** Ascending order of the key. *)
Definition key_le (x y : A) : Prop := key x ≤ key y.
End Sorted.

(** ** The scheduler *)

(** The body of the [for] loop: [st] is [(scheduled, last_end)]. *)
Definition schedule_step (st : list patient_t * Z) (patient : patient_t)
    : list patient_t * Z :=
  let '(scheduled, last_end) := st in
  let '(name, start, end_) := patient in
  if decide (start >= last_end) then (scheduled ++ [patient], end_)
  else (scheduled, last_end).

Definition greedy_schedule (patients_list : list patient_t) : list patient_t :=
  let sorted_patients := sorted p_end patients_list in
  (fold_left schedule_step sorted_patients ([], -1)).1.

(** The loop, unrolled from the front: what is accepted from [l] when the
    last accepted end is [last_end]. *)
Fixpoint select (l : list patient_t) (last_end : Z) : list patient_t :=
  match l with
  | [] => []
  | p :: l' =>
      if decide (p_start p >= last_end) then p :: select l' (p_end p)
      else select l' last_end
  end.

(** Two intervals do not overlap when one ends no later than the other
    starts (a shared boundary is allowed). *)
Definition non_overlapping (a b : patient_t) : Prop :=
  p_end a ≤ p_start b ∨ p_end b ≤ p_start a.

(** Every two elements at different positions do not overlap. *)
Fixpoint pairwise_non_overlapping (l : list patient_t) : Prop :=
  match l with
  | [] => True
  | p :: l' => Forall (non_overlapping p) l' ∧ pairwise_non_overlapping l'
  end.

(** What the schedule guarantees of an accepted [a] that comes before an
    accepted [b]. *)
Definition precedes (a b : patient_t) : Prop :=
  p_end a ≤ p_start b ∧ p_end a ≤ p_end b.

(** ** JSON values

    What [request.json] yields and what [jsonify] takes.  A JSON number
    with a fraction or an exponent is a Python [float], an IEEE double:
    [spec_float] is the Standard Library's description of one.  An object
    is the list of its members in document order. *)
#[warnings="-register-all"]
Inductive jvalue : Type :=
  | JNull
  | JBool (b : bool)
  | JInt (n : Z)
  | JFloat (f : spec_float)
  | JStr (s : string)
  | JArr (l : list jvalue)
  | JObj (d : list (string * jvalue)).

(** [d.get(k)] on a parsed object: of two members with one key the later
    one is kept by the parser. *)
Fixpoint dict_get (k : string) (d : list (string * jvalue)) : option jvalue :=
  match d with
  | [] => None
  | (k', v) :: d' =>
      match dict_get k d' with
      | Some v' => Some v'
      | None => if decide (k = k') then Some v else None
      end
  end.

(** Truth value of a JSON value, as [or] tests it. *)
Definition py_truthy (v : jvalue) : bool :=
  match v with
  | JNull => false
  | JBool b => b
  | JInt n => bool_decide (n ≠ 0)
  | JFloat (S754_zero _) => false
  | JFloat _ => true
  | JStr s => bool_decide (s ≠ "")
  | JArr l => bool_decide (l ≠ [])
  | JObj d => bool_decide (d ≠ [])
  end.

(** [int(f)] of a float: truncation towards zero; [None] is the
    [ValueError] of a NaN and the [OverflowError] of an infinity. *)
Definition int_of_float (f : spec_float) : option Z :=
  match f with
  | S754_zero _ => Some 0
  | S754_infinity _ | S754_nan => None
  | S754_finite s m e =>
      let mag := if decide (0 ≤ e) then Z.pos m * 2 ^ e
                 else Z.pos m `div` 2 ^ (- e) in
      Some (if s then - mag else mag)
  end.

(** [{'name': p[0], 'start': p[1], 'end': p[2]}] *)
Definition patient_json (p : patient_t) : jvalue :=
  JObj [("name", JStr p.1.1); ("start", JInt p.1.2); ("end", JInt p.2)].

(** What a handler answers: [jsonify(body), status], or an exception that
    no handler catches, to which Flask answers 500. *)
Inductive response : Type :=
  | Json (status : Z) (body : jvalue)
  | Unhandled.

Definition error_body (msg : string) : jvalue := JObj [("error", JStr msg)].
Definition status_body (msg : string) : jvalue := JObj [("status", JStr msg)].

(** ** The process state

    List objects live in a heap and are passed by reference, so that a
    handler and the scheduler can share the one list [patients]; the
    state of the [random] module is process-wide too. *)
Definition loc : Type := positive.

Record state (rng : Type) : Type := State {
  st_heap : gmap loc (list patient_t);
  st_rng : rng;
}.
Arguments State {rng} _ _.
Arguments st_heap {rng} _.
Arguments st_rng {rng} _.

(** The module-level [patients = []]. *)
Definition patients : loc := 1%positive.

Definition initial_state {rng : Type} (g : rng) : state rng :=
  State {[ patients := [] ]} g.

(** A computation on the process state; [None] is the read of a reference
    that names no object, which Python cannot build. *)
Definition M (rng A : Type) : Type := state rng → option (A * state rng).

Section Monad.
Context {rng : Type}.

Definition ret {A} (x : A) : M rng A := λ σ, Some (x, σ).

Definition bind {A B} (c : M rng A) (k : A → M rng B) : M rng B :=
  λ σ, match c σ with
       | Some (x, σ') => k x σ'
       | None => None
       end.

(** A new list object holding [l]. *)
Definition new_list (l : list patient_t) : M rng loc :=
  λ σ, let r := fresh (dom (st_heap σ)) in
       Some (r, State (<[r := l]> (st_heap σ)) (st_rng σ)).

(** The contents of the list object [r]. *)
Definition read (r : loc) : M rng (list patient_t) :=
  λ σ, match st_heap σ !! r with
       | Some l => Some (l, σ)
       | None => None
       end.

(** [r.append(x)] *)
Definition list_append (r : loc) (x : patient_t) : M rng unit :=
  λ σ, match st_heap σ !! r with
       | Some l => Some ((), State (<[r := l ++ [x]]> (st_heap σ)) (st_rng σ))
       | None => None
       end.

(** [r.clear()] *)
Definition list_clear (r : loc) : M rng unit :=
  λ σ, match st_heap σ !! r with
       | Some _ => Some ((), State (<[r := []]> (st_heap σ)) (st_rng σ))
       | None => None
       end.

(** A draw from the [random] module. *)
Definition draw {A} (f : rng → A * rng) : M rng A :=
  λ σ, let '(x, g) := f (st_rng σ) in Some (x, State (st_heap σ) g).
End Monad.

Notation "'let*' x ':=' c 'in' k" := (bind c (λ x, k))
  (at level 10, x name, c at level 100, k at level 200,
   format "'[v' 'let*'  x  :=  c  'in' '/' k ']'").
Notation "'do' c 'then' k" := (bind c (λ _, k))
  (at level 10, c at level 100, k at level 200,
   format "'[v' 'do'  c  'then' '/' k ']'").

Section Handlers.
Context {rng : Type}.
(** The built-ins the handlers call: [str.strip], which removes the
    white space of Unicode at both ends of a text, [int] on a [str]
    ([None] is its [ValueError]), [random.randint] and [random.choice].
    No encoding of a name is fixed: what [strip] removes is Python's
    business, and a theorem holds for whatever it is. *)
Context (str_strip : string → string).
Context (int_of_str : string → option Z).
Context (randint : Z → Z → rng → Z * rng).
Context (choice : list string → rng → string * rng).

(** A [for] loop over the elements [l] with a local variable [s]. *)
Fixpoint for_each {X S} (l : list X) (body : X → S → M rng S) (s : S)
    : M rng S :=
  match l with
  | [] => ret s
  | x :: l' => let* s' := body x s in for_each l' body s'
  end.

(** [greedy_schedule] on list objects: [sorted] builds a new list,
    [scheduled] is a new list, and the loop appends to it.  The loop
    body leaves [sorted_patients] alone, so the loop runs over what the
    list holds on entry. *)
Definition schedule_body (scheduled : loc) (patient : patient_t)
    (last_end : Z) : M rng Z :=
  let '(name, start, end_) := patient in
  if decide (start >= last_end)
  then do list_append scheduled patient then ret end_
  else ret last_end.

Definition greedy_schedule_obj (patients_list : loc) : M rng loc :=
  let* xs := read patients_list in
  let* sorted_patients := new_list (sorted p_end xs) in
  let* scheduled := new_list [] in
  let* l := read sorted_patients in
  do for_each l (schedule_body scheduled) (-1) then
  ret scheduled.

(** [GET /api/patients] *)
Definition get_patients : M rng response :=
  let* ps := read patients in
  ret (Json 200 (JArr (patient_json <$> ps))).

(** [int(v)]; [None] is the exception that the [try] catches
    ([TypeError] for [None], a list or an object). *)
Definition py_int (v : jvalue) : option Z :=
  match v with
  | JBool b => Some (if b then 1 else 0)
  | JInt n => Some n
  | JFloat f => int_of_float f
  | JStr s => int_of_str s
  | JNull | JArr _ | JObj _ => None
  end.

(** [POST /api/patients]; [body] is [request.json]. *)
Definition add_patient (body : jvalue) : M rng response :=
  let data := if py_truthy body then body else JObj [] in
  match data with
  | JObj d =>
      match default (JStr "") (dict_get "name" d) with
      | JStr s =>
          let name := str_strip s in
          match py_int (default JNull (dict_get "start" d)),
                py_int (default JNull (dict_get "end" d)) with
          | Some start, Some end_ =>
              if decide (name = "" ∨ start >= end_)
              then ret (Json 400 (error_body "Invalid name or time values"))
              else do list_append patients (name, start, end_) then
                   ret (Json 201 (status_body "ok"))
          | _, _ => ret (Json 400 (error_body "Start and End must be integers"))
          end
      | _ => ret Unhandled
      end
  | _ => ret Unhandled
  end.

(** [POST /api/clear] *)
Definition clear_patients : M rng response :=
  do list_clear patients then
  ret (Json 200 (status_body "cleared")).

Definition names : list string :=
  ["Ram"; "Shyam"; "Sita"; "Gita"; "Aman"; "Pooja"; "Vikas"; "Rani"].

(** [range(n)] *)
Definition range (n : nat) : list Z := Z.of_nat <$> seq 0 n.

(** [str(n)] of an integer. *)
Definition py_str (n : Z) : string := pretty n.

(** The body of the loop of [auto_generate]. *)
Definition auto_body (i : Z) (_ : unit) : M rng unit :=
  let* c := draw (choice names) in
  let name := c +:+ py_str (i + 1) in
  let* start := draw (randint 1 8) in
  let* w := draw (randint 1 4) in
  let end_ := start + w in
  list_append patients (name, start, end_).

(** [POST /api/auto] *)
Definition auto_generate : M rng response :=
  do list_clear patients then
  do for_each (range 8) auto_body () then
  let* ps := read patients in
  ret (Json 200 (JObj [("status", JStr "generated");
                       ("count", JInt (Z.of_nat (length ps)))])).

(** [GET /api/schedule] *)
Definition schedule : M rng response :=
  let* ps := read patients in
  if decide (ps = []) then ret (Json 400 (error_body "No patients"))
  else
    let* scheduled := greedy_schedule_obj patients in
    let* out := read scheduled in
    ret (Json 200 (JArr (patient_json <$> out))).
End Handlers.

(** What the loop of [auto_generate] appends in a round: an interval
    within the ranges of the two draws. *)
Definition generated (p : patient_t) : Prop :=
  1 ≤ p_start p ≤ 8 ∧ p_start p + 1 ≤ p_end p ≤ p_start p + 4.

(** The intervals with the given start and end. *)
Definition same_slot (s e : Z) (p : patient_t) : Prop :=
  p_start p = s ∧ p_end p = e.

#[global] Instance same_slot_dec s e p : Decision (same_slot s e p).
Proof. unfold same_slot. apply _. Defined.

(** ** Requests

    The routes of the API, one constructor per [@app.route] that touches
    the state; the development server serves one request after the
    other.  The page at [/] renders a constant and is left out. *)
Inductive request : Type :=
  | GetPatients                  (* GET /api/patients *)
  | AddPatient (body : jvalue)   (* POST /api/patients *)
  | ClearPatients                (* POST /api/clear *)
  | AutoGenerate                 (* POST /api/auto *)
  | Schedule.                    (* GET /api/schedule *)

Section Serve.
Context {rng : Type}.
Context (str_strip : string → string).
Context (int_of_str : string → option Z).
Context (randint : Z → Z → rng → Z * rng).
Context (choice : list string → rng → string * rng).

Definition handle (q : request) : M rng response :=
  match q with
  | GetPatients => get_patients
  | AddPatient body => add_patient str_strip int_of_str body
  | ClearPatients => clear_patients
  | AutoGenerate => auto_generate randint choice
  | Schedule => schedule
  end.

Fixpoint serve (qs : list request) : M rng (list response) :=
  match qs with
  | [] => ret []
  | q :: qs' =>
      let* a := handle q in
      let* rest := serve qs' in
      ret (a :: rest)
  end.
End Serve.

(** The collection exists and holds only valid intervals with a name. *)
Definition collection_valid {rng : Type} (σ : state rng) : Prop :=
  ∃ ps, st_heap σ !! patients = Some ps
        ∧ Forall (λ p, valid p ∧ p_name p ≠ "") ps.

(** The last character of a string. *)
Fixpoint last_char (s : string) : option ascii :=
  match s with
  | EmptyString => None
  | String c EmptyString => Some c
  | String _ s' => last_char s'
  end.

(** In [auto_generate], the name of round [i] ends with the digits of
    [i + 1]. *)
Definition named_by_round (i : Z) (p : patient_t) : Prop :=
  ∃ c, p_name p = c +:+ py_str (i + 1).

(** ** Concrete states and draws, for examples *)

(** A collection of three, with no random state. *)
Definition three_patients : state () :=
  State {[ patients := [("p", 1, 5); ("q", 2, 3); ("r", 4, 6)] ]} ().

(** For the examples, whose names have no white space at either end: a
    [strip] that finds nothing to remove. *)
Definition strip_nothing (s : string) : string := s.

(** A [randint] that always draws the lower bound, and a [choice] that
    always draws the first element. *)
Definition randint_low (a b : Z) (g : ()) : Z * () := (a, g).
Definition choice_first (l : list string) (g : ()) : string * () :=
  (default "" (head l), g).

(** * Proofs *)

Example overlap_rejection :
  greedy_schedule [("p", 1, 5); ("q", 2, 3); ("r", 4, 6)]
  = [("q", 2, 3); ("r", 4, 6)].
Proof. reflexivity. Qed.


(** ** Facts about [sorted] *)

Section SortedFacts.
Context {A : Type} (key : A → Z).
Implicit Types (x y : A) (l : list A) (k : Z).

#[local] Instance key_le_trans : Transitive (key_le key).
Proof. intros x y z; unfold key_le; lia. Qed.

Lemma insert_sorted_Permutation x l : insert_sorted key x l ≡ₚ x :: l.
Proof.
  induction l as [|y l IH]; simpl; [done|].
  case_decide; [done|]. rewrite IH. apply Permutation_swap.
Qed.

Lemma sorted_Permutation l : sorted key l ≡ₚ l.
Proof.
  induction l as [|x l IH]; simpl; [done|].
  by rewrite insert_sorted_Permutation, IH.
Qed.

Lemma sorted_length l : length (sorted key l) = length l.
Proof. by rewrite sorted_Permutation. Qed.

Lemma insert_sorted_StronglySorted x l :
  StronglySorted (key_le key) l →
  StronglySorted (key_le key) (insert_sorted key x l).
Proof.
  induction 1 as [|y l Hl IH Hy]; simpl.
  - repeat constructor.
  - case_decide as Hxy.
    + apply StronglySorted_cons; split; [|by constructor].
      constructor; [done|].
      eapply Forall_impl; [exact Hy|]. intros z Hz. unfold key_le in *. lia.
    + apply StronglySorted_cons; split; [|done].
      rewrite insert_sorted_Permutation. constructor; [|done].
      unfold key_le. lia.
Qed.

Lemma sorted_StronglySorted l : StronglySorted (key_le key) (sorted key l).
Proof.
  induction l; simpl; [constructor|by apply insert_sorted_StronglySorted].
Qed.

(** Inserting in front of a list whose keys are all at least as large
    is [cons]. *)
Lemma insert_sorted_head x l :
  Forall (key_le key x) l → insert_sorted key x l = x :: l.
Proof.
  destruct 1 as [|y l Hy _]; simpl; [done|]. by rewrite decide_True.
Qed.

(** A list already in ascending key order is left as it is. *)
Lemma sorted_id l : StronglySorted (key_le key) l → sorted key l = l.
Proof.
  induction 1 as [|x l _ IH Hx]; simpl; [done|].
  rewrite IH. by apply insert_sorted_head.
Qed.

Lemma insert_sorted_filter_eq x l k :
  filter (λ y, key y = k) (insert_sorted key x l)
  = filter (λ y, key y = k) (x :: l).
Proof.
  induction l as [|y l IH]; simpl; [done|].
  case_decide as Hxy; [done|].
  rewrite !filter_cons in *.
  destruct (decide (key y = k)), (decide (key x = k)); try lia;
    by rewrite IH.
Qed.

(** Stability: the elements of one key keep their input order. *)
Lemma sorted_stable l k :
  filter (λ y, key y = k) (sorted key l) = filter (λ y, key y = k) l.
Proof.
  induction l as [|x l IH]; simpl; [done|].
  by rewrite insert_sorted_filter_eq, !filter_cons, IH.
Qed.

(** Two lists in ascending key order that agree on the sequence of
    elements of every key are equal. *)
Lemma StronglySorted_stable_eq l1 l2 :
  StronglySorted (key_le key) l1 →
  StronglySorted (key_le key) l2 →
  (∀ k, filter (λ y, key y = k) l1 = filter (λ y, key y = k) l2) →
  l1 = l2.
Proof.
  intros Hs1. revert l2.
  induction Hs1 as [|a l1 Hs1 IH Ha]; intros l2 Hs2 Heq.
  - destruct l2 as [|b l2]; [done|].
    specialize (Heq (key b)). rewrite filter_cons_True in Heq by done.
    discriminate.
  - destruct Hs2 as [|b l2 Hs2 Hb].
    { specialize (Heq (key a)). rewrite filter_cons_True in Heq by done.
      discriminate. }
    assert (key a = key b) as Hab.
    { assert (a ∈ b :: l2) as Ha2.
      { eapply (list_elem_of_filter (λ y, key y = key a)).
        rewrite <-Heq, filter_cons_True by done. left. }
      assert (b ∈ a :: l1) as Hb1.
      { eapply (list_elem_of_filter (λ y, key y = key b)).
        rewrite Heq, filter_cons_True by done. left. }
      apply elem_of_cons in Ha2 as [->|Ha2]; [done|].
      apply elem_of_cons in Hb1 as [->|Hb1]; [done|].
      rewrite Forall_forall in Ha, Hb.
      specialize (Ha _ Hb1). specialize (Hb _ Ha2).
      unfold key_le in *. lia. }
    assert (a = b) as ->.
    { specialize (Heq (key a)).
      rewrite filter_cons_True in Heq by done.
      rewrite filter_cons_True in Heq by done.
      congruence. }
    f_equal. apply IH; [done|]. intros k. specialize (Heq k).
    rewrite !filter_cons in Heq. case_decide; congruence.
Qed.

(** [sorted] is the only stable sort: whatever algorithm Python runs,
    a result in ascending key order that keeps the input order among
    equal keys is this list. *)
Lemma sorted_unique l l' :
  StronglySorted (key_le key) l' →
  (∀ k, filter (λ y, key y = k) l' = filter (λ y, key y = k) l) →
  l' = sorted key l.
Proof.
  intros Hs Hst. apply StronglySorted_stable_eq; [done|..].
  - apply sorted_StronglySorted.
  - intros k. by rewrite sorted_stable.
Qed.

Lemma Forall_sublist (P : A → Prop) l1 l2 :
  l1 `sublist_of` l2 → Forall P l2 → Forall P l1.
Proof.
  intros Hsub%sublist_subseteq. rewrite !Forall_forall. intros H x Hx.
  apply H, Hsub, Hx.
Qed.

Lemma StronglySorted_sublist (R : relation A) l1 l2 :
  l1 `sublist_of` l2 → StronglySorted R l2 → StronglySorted R l1.
Proof.
  induction 1 as [|x l1 l2 Hsub IH|x l1 l2 Hsub IH];
    rewrite ?StronglySorted_cons; [done|..].
  - intros [Hx Hs]. split; [|by auto]. by eapply Forall_sublist.
  - intros [_ Hs]. auto.
Qed.
End SortedFacts.

(** ** The loop of [greedy_schedule] *)

Lemma fold_left_schedule_step l acc last_end :
  (fold_left schedule_step l (acc, last_end)).1 = acc ++ select l last_end.
Proof.
  revert acc last_end.
  induction l as [|[[name start] end_] l IH]; intros acc last_end; simpl.
  - by rewrite app_nil_r.
  - unfold p_start, p_end; simpl. case_decide.
    + by rewrite IH, <-app_assoc.
    + apply IH.
Qed.

Lemma greedy_schedule_select xs :
  greedy_schedule xs = select (sorted p_end xs) (-1).
Proof. unfold greedy_schedule. by rewrite fold_left_schedule_step. Qed.

Lemma select_sublist l last_end : select l last_end `sublist_of` l.
Proof.
  revert last_end. induction l as [|p l IH]; intros last_end; simpl.
  - constructor.
  - case_decide; by constructor.
Qed.

(** Whatever is accepted starts no earlier than the last accepted end,
    provided the ends still to come, in ascending order, are not smaller
    than it. *)
Lemma select_start_bound l last_end :
  StronglySorted (key_le p_end) l →
  Forall (λ q, last_end ≤ p_end q) l →
  Forall (λ q, last_end ≤ p_start q) (select l last_end).
Proof.
  intros Hs. revert last_end.
  induction Hs as [|p l Hs IH Hp]; intros last_end Hle; simpl; [done|].
  apply Forall_cons in Hle as [Hple Hle].
  case_decide as Hacc.
  - constructor; [lia|].
    eapply Forall_impl; [apply (IH (p_end p)); exact Hp|].
    simpl. intros q Hq. lia.
  - by apply IH.
Qed.

Lemma select_precedes l last_end :
  StronglySorted (key_le p_end) l →
  StronglySorted precedes (select l last_end).
Proof.
  intros Hs. revert last_end.
  induction Hs as [|p l Hs IH Hp]; intros last_end; simpl; [constructor|].
  case_decide; [|done].
  apply StronglySorted_cons; split; [|done].
  apply Forall_and; split.
  - by apply select_start_bound.
  - eapply Forall_sublist; [apply select_sublist|exact Hp].
Qed.

(** The accepted intervals are all accepted again, in the same order. *)
Lemma select_idem l last_end :
  select (select l last_end) last_end = select l last_end.
Proof.
  revert last_end. induction l as [|p l IH]; intros last_end; simpl; [done|].
  case_decide as Hacc; [|done].
  simpl. rewrite decide_True by done. by rewrite IH.
Qed.

Lemma greedy_schedule_sorted xs :
  StronglySorted (key_le p_end) (greedy_schedule xs).
Proof.
  rewrite greedy_schedule_select.
  eapply StronglySorted_sublist; [apply select_sublist|].
  apply sorted_StronglySorted.
Qed.

Lemma precedes_non_overlapping l :
  StronglySorted precedes l → pairwise_non_overlapping l.
Proof.
  induction 1 as [|p l _ IH Hp]; simpl; [done|]. split; [|done].
  eapply Forall_impl; [exact Hp|]. intros q [Hq _]. by left.
Qed.

(** [StronglySorted] read by positions. *)
Lemma StronglySorted_lookup_lt {A} (R : relation A) (l : list A) i j a b :
  StronglySorted R l → (i < j)%nat → l !! i = Some a → l !! j = Some b →
  R a b.
Proof.
  intros Hs. revert i j.
  induction Hs as [|x l _ IH Hx]; intros i j Hij Hi Hj; [done|].
  destruct j as [|j]; [lia|]. simpl in Hj.
  destruct i as [|i]; simpl in Hi.
  - simplify_eq. rewrite Forall_forall in Hx.
    apply Hx. by eapply list_elem_of_lookup_2.
  - apply (IH i j); [lia|done..].
Qed.

(** ** Optimality of the greedy choice *)

Lemma pairwise_non_overlapping_filter (P : patient_t → Prop)
    `{!∀ q, Decision (P q)} l :
  pairwise_non_overlapping l → pairwise_non_overlapping (filter P l).
Proof.
  induction l as [|p l IH]; simpl; [done|]. intros [Hp Hl].
  rewrite filter_cons. case_decide; simpl; [|by auto].
  split; [|by auto].
  eapply Forall_sublist; [apply sublist_filter|exact Hp].
Qed.

(** Intervals that all contain the instant just before [e] overlap each
    other: a non-overlapping selection holds at most one of them. *)
Lemma pairwise_non_overlapping_stabbed e l :
  pairwise_non_overlapping l →
  Forall (λ q, p_start q < e ≤ p_end q) l →
  (length l ≤ 1)%nat.
Proof.
  destruct l as [|a [|b l]]; simpl; [lia..|].
  intros [Ha _] Hall. exfalso.
  apply Forall_cons in Ha as [Hab _].
  apply Forall_cons in Hall as [Hae Hall].
  apply Forall_cons in Hall as [Hbe _].
  unfold non_overlapping in Hab. lia.
Qed.

Lemma submseteq_cons_not_elem (p : patient_t) ys l :
  ys ⊆+ p :: l → p ∉ ys → ys ⊆+ l.
Proof.
  intros [?|(ys' & Hperm & _)]%submseteq_cons_r Hp; [done|].
  destruct Hp. rewrite Hperm. left.
Qed.

(** The exchange argument, on the sorted list: no selection of
    non-overlapping intervals out of [l] that start at [last_end] or later
    is longer than what the loop accepts. *)
Lemma select_optimal l last_end ys :
  StronglySorted (key_le p_end) l →
  Forall valid l →
  ys ⊆+ l →
  pairwise_non_overlapping ys →
  Forall (λ q, last_end ≤ p_start q) ys →
  (length ys ≤ length (select l last_end))%nat.
Proof.
  intros Hs. revert last_end ys.
  induction Hs as [|p l Hs IH Hp]; intros last_end ys Hv Hsub Hpw Hlo.
  { apply submseteq_nil_r in Hsub as ->. done. }
  apply Forall_cons in Hv as [Hvp Hv]. simpl.
  case_decide as Hacc.
  - set (later := λ q : patient_t, p_end p ≤ p_start q).
    rewrite <-(filter_app_complement later ys), length_app. simpl.
    assert (length (filter later ys) ≤ length (select l (p_end p)))%nat.
    { apply IH; [done|..].
      - apply submseteq_cons_not_elem with p.
        + etrans; [|exact Hsub]. apply sublist_submseteq, sublist_filter.
        + intros [Hlat _]%list_elem_of_filter.
          unfold later, valid in *. lia.
      - by apply pairwise_non_overlapping_filter.
      - apply Forall_forall. by intros q [Hq _]%list_elem_of_filter. }
    assert (length (filter (λ q, ¬ later q) ys) ≤ 1)%nat.
    { apply (pairwise_non_overlapping_stabbed (p_end p)).
      - by apply pairwise_non_overlapping_filter.
      - apply Forall_forall. intros q [Hq Hin]%list_elem_of_filter.
        unfold later in Hq. split; [lia|].
        apply (elem_of_submseteq _ _ _ Hin) in Hsub.
        apply elem_of_cons in Hsub as [->|Hql]; [done|].
        rewrite Forall_forall in Hp. by apply Hp. }
    lia.
  - apply IH; [done| |done..].
    apply submseteq_cons_not_elem with p; [done|].
    intros Hin. rewrite Forall_forall in Hlo. specialize (Hlo _ Hin). lia.
Qed.

(** The schedule is a largest selection of non-overlapping intervals as
    long as no interval starts below the initial [last_end = -1]. *)
Lemma greedy_schedule_optimal xs ys :
  Forall valid xs →
  Forall (λ p, -1 ≤ p_start p) xs →
  ys ⊆+ xs →
  pairwise_non_overlapping ys →
  (length ys ≤ length (greedy_schedule xs))%nat.
Proof.
  intros Hv Hlo Hsub Hpw. rewrite greedy_schedule_select.
  apply select_optimal; [apply sorted_StronglySorted|..|done|].
  - by rewrite sorted_Permutation.
  - by rewrite sorted_Permutation.
  - rewrite Forall_forall in *. intros q Hq. apply Hlo.
    by eapply elem_of_submseteq.
Qed.

(** ** Ties *)





(** ** The claims about the scheduler *)

(** C1.  The claim fails on the code: an interval that starts below the
    initial [last_end = -1] is never accepted.  On the one valid interval
    [("a", -5, -3)] the schedule is empty, while the input itself is a
    selection of non-overlapping intervals of cardinality one.
    ([greedy_schedule_optimal] is the claim for inputs with no start
    below [-1].) *)
Theorem greedy_schedule_not_maximum_below_sentinel :
  let xs := [("a", -5, -3)] in
  Forall valid xs
  ∧ greedy_schedule xs = []
  ∧ xs ⊆+ xs ∧ pairwise_non_overlapping xs
  ∧ (length (greedy_schedule xs) < length xs)%nat.
Proof.
  intros xs. split; [|split; [|split; [|split]]].
  - constructor; [|done]. unfold valid, p_start, p_end; simpl. lia.
  - reflexivity.
  - done.
  - by split.
  - vm_compute. done.
Qed.

(** C2, as the claim states it, fails: the schedule is in the order of
    the ends, not in the order of the input, so it is no subsequence of
    an input whose ends are not ascending. *)
Lemma greedy_schedule_not_subsequence :
  ¬ (greedy_schedule [("b", 3, 5); ("a", 1, 3)]
       `sublist_of` [("b", 3, 5); ("a", 1, 3)]).
Proof.
  replace (greedy_schedule [("b", 3, 5); ("a", 1, 3)])
    with [("a", 1, 3); ("b", 3, 5)] by reflexivity.
  intros H.
  apply sublist_cons_r in H as [H|(l' & Heq & _)]; [|discriminate].
  apply sublist_cons_r in H as [H|(l' & Heq & H)].
  - by apply sublist_nil_r in H.
  - simplify_eq. by apply sublist_nil_r in H.
Qed.

(** C2, amended.  The schedule is a subsequence of the input sorted
    stably by end, hence a selection of elements of the input, each taken
    at most as often as it occurs; of two accepted intervals the later
    one starts no earlier than the earlier one ends, and ends no
    earlier. *)
Theorem greedy_schedule_sound xs :
  greedy_schedule xs `sublist_of` sorted p_end xs
  ∧ greedy_schedule xs ⊆+ xs
  ∧ pairwise_non_overlapping (greedy_schedule xs)
  ∧ ∀ i j a b,
      (i < j)%nat →
      greedy_schedule xs !! i = Some a →
      greedy_schedule xs !! j = Some b →
      p_start b >= p_end a ∧ p_end a ≤ p_end b.
Proof.
  assert (StronglySorted precedes (greedy_schedule xs)) as Hpre.
  { rewrite greedy_schedule_select.
    apply select_precedes, sorted_StronglySorted. }
  split_and!.
  - rewrite greedy_schedule_select. apply select_sublist.
  - rewrite greedy_schedule_select. trans (sorted p_end xs).
    + apply sublist_submseteq, select_sublist.
    + apply Permutation_submseteq, sorted_Permutation.
  - by apply precedes_non_overlapping.
  - intros i j a b Hij Ha Hb.
    destruct (StronglySorted_lookup_lt _ _ _ _ _ _ Hpre Hij Ha Hb).
    split; [lia|done].
Qed.

(** On an input already in ascending order of end the schedule is a
    subsequence of the input itself. *)
Lemma greedy_schedule_sublist_sorted xs :
  StronglySorted (key_le p_end) xs → greedy_schedule xs `sublist_of` xs.
Proof.
  intros Hs. rewrite greedy_schedule_select, sorted_id by done.
  apply select_sublist.
Qed.

(** A single interval is accepted exactly when it does not start below
    the initial [last_end]. *)
Lemma greedy_schedule_single name start end_ :
  greedy_schedule [(name, start, end_)]
  = if decide (start >= -1) then [(name, start, end_)] else [].
Proof.
  rewrite greedy_schedule_select. simpl. unfold p_start; simpl.
  by case_decide.
Qed.

(** C5.  The test of the loop is [start >= last_end]: an interval that
    starts exactly at the last accepted end is appended, and
    [("a", 1, 3)], [("b", 3, 5)] are both accepted. *)
Theorem touching_boundary_accepted :
  (∀ scheduled name last_end end_,
     schedule_step (scheduled, last_end) (name, last_end, end_)
     = (scheduled ++ [(name, last_end, end_)], end_))
  ∧ (∀ name last_end end_ l,
       select ((name, last_end, end_) :: l) last_end
       = (name, last_end, end_) :: select l end_)
  ∧ greedy_schedule [("a", 1, 3); ("b", 3, 5)]
    = [("a", 1, 3); ("b", 3, 5)].
Proof.
  split_and!.
  - intros. simpl. rewrite decide_True by lia. done.
  - intros. simpl. unfold p_start, p_end; simpl.
    rewrite decide_True by lia. done.
  - reflexivity.
Qed.

(** The pure part of C7: scheduling a schedule gives it back. *)
Lemma greedy_schedule_idem xs :
  greedy_schedule (greedy_schedule xs) = greedy_schedule xs.
Proof.
  rewrite (greedy_schedule_select (greedy_schedule xs)).
  rewrite sorted_id by apply greedy_schedule_sorted.
  rewrite greedy_schedule_select. apply select_idem.
Qed.


(** ** The scheduler on list objects *)

Section HeapFacts.
Context {rng : Type}.
Implicit Types (σ : state rng) (r : loc) (l xs acc : list patient_t).

(** The loop appends to [scheduled] what [select] accepts and touches
    nothing else. *)
Lemma for_each_select l last_end σ scheduled acc :
  st_heap σ !! scheduled = Some acc →
  ∃ last_end',
    for_each l (schedule_body scheduled) last_end σ
    = Some (last_end',
            State (<[scheduled := acc ++ select l last_end]> (st_heap σ))
                  (st_rng σ)).
Proof.
  revert last_end σ acc.
  induction l as [|[[name start] end_] l IH]; intros last_end σ acc Hacc.
  - exists last_end. simpl. unfold ret. destruct σ as [h g]; simpl in *.
    by rewrite app_nil_r, insert_id.
  - simpl. unfold p_start, p_end; simpl. unfold bind at 1.
    case_decide as Hge.
    + unfold bind at 1, list_append. rewrite Hacc. unfold ret at 1.
      edestruct (IH end_ (State (<[scheduled := acc ++ [(name, start, end_)]]>
                                  (st_heap σ)) (st_rng σ)))
        as [last_end' IH'].
      { simpl. apply lookup_insert_eq. }
      exists last_end'. etrans; [exact IH'|]. simpl.
      by rewrite insert_insert_eq, <-app_assoc.
    + unfold ret at 1. by apply IH.
Qed.

(** A call allocates two lists, the sorted copy and the result, and
    changes no list that existed before. *)
Lemma greedy_schedule_obj_spec σ patients_list xs :
  st_heap σ !! patients_list = Some xs →
  let sorted_patients := fresh (dom (st_heap σ)) in
  let h1 := <[sorted_patients := sorted p_end xs]> (st_heap σ) in
  let scheduled := fresh (dom h1) in
  greedy_schedule_obj patients_list σ
  = Some (scheduled,
          State (<[scheduled := greedy_schedule xs]> h1) (st_rng σ)).
Proof.
  intros Hxs sorted_patients h1 scheduled.
  unfold greedy_schedule_obj, bind, read, new_list. rewrite Hxs. simpl.
  fold sorted_patients. fold h1. fold scheduled.
  assert (h1 !! scheduled = None) as Hfresh.
  { apply not_elem_of_dom, is_fresh. }
  assert (sorted_patients ≠ scheduled) as Hne.
  { intros Heq. unfold h1 in Hfresh.
    by rewrite <-Heq, lookup_insert_eq in Hfresh. }
  rewrite lookup_insert_ne by done. unfold h1 at 1.
  rewrite lookup_insert_eq.
  edestruct (for_each_select (sorted p_end xs) (-1)
               (State (<[scheduled := []]> h1) (st_rng σ)) scheduled [])
    as [last_end' ->].
  { simpl. apply lookup_insert_eq. }
  unfold ret. simpl.
  by rewrite insert_insert_eq, greedy_schedule_select.
Qed.

Lemma greedy_schedule_obj_frame σ patients_list xs :
  st_heap σ !! patients_list = Some xs →
  ∃ scheduled σ',
    greedy_schedule_obj patients_list σ = Some (scheduled, σ')
    ∧ st_heap σ !! scheduled = None
    ∧ st_heap σ' !! scheduled = Some (greedy_schedule xs)
    ∧ st_rng σ' = st_rng σ
    ∧ ∀ r l, st_heap σ !! r = Some l → st_heap σ' !! r = Some l.
Proof.
  intros Hxs. eexists _, _. split; [by apply greedy_schedule_obj_spec|].
  set (r1 := fresh (dom (st_heap σ))).
  set (h1 := <[r1 := sorted p_end xs]> (st_heap σ)).
  set (r2 := fresh (dom h1)).
  assert (st_heap σ !! r1 = None) as H1 by apply not_elem_of_dom, is_fresh.
  assert (h1 !! r2 = None) as H2 by apply not_elem_of_dom, is_fresh.
  assert (st_heap σ !! r2 = None) as H3.
  { unfold h1 in H2. destruct (decide (r1 = r2)) as [<-|]; [done|].
    by rewrite lookup_insert_ne in H2. }
  simpl. split_and!; [done|apply lookup_insert_eq|done|].
  intros r l Hr.
  rewrite lookup_insert_ne by congruence.
  unfold h1. by rewrite lookup_insert_ne by congruence.
Qed.
End HeapFacts.

(** ** The handlers *)

Section AddPatientFacts.
Context {rng : Type}.
Context (str_strip : string → string).
Context (int_of_str : string → option Z).
Implicit Types (σ : state rng) (ps : list patient_t) (body : jvalue).

(** [request.json or {}] keeps an object as it is. *)
Lemma add_patient_obj d σ :
  add_patient str_strip int_of_str (JObj d) σ
  = match default (JStr "") (dict_get "name" d) with
    | JStr s =>
        match py_int int_of_str (default JNull (dict_get "start" d)),
              py_int int_of_str (default JNull (dict_get "end" d)) with
        | Some start, Some end_ =>
            if decide (str_strip s = "" ∨ start >= end_)
            then Some (Json 400 (error_body "Invalid name or time values"), σ)
            else (do list_append patients (str_strip s, start, end_) then
                  ret (Json 201 (status_body "ok"))) σ
        | _, _ => Some (Json 400 (error_body "Start and End must be integers"), σ)
        end
    | _ => Some (Unhandled, σ)
    end.
Proof.
  unfold add_patient.
  replace (if py_truthy (JObj d) then JObj d else JObj []) with (JObj d)
    by (by destruct d).
  destruct (default (JStr "") (dict_get "name" d)); try done.
  destruct (py_int _ _); [|done].
  destruct (py_int _ _); [|done].
  by case_decide.
Qed.

(** Every answer but 201 leaves the state as it was, and 201 comes with
    exactly one valid interval appended to [patients]. *)
Lemma add_patient_total body σ ps :
  st_heap σ !! patients = Some ps →
  ∃ resp σ',
    add_patient str_strip int_of_str body σ = Some (resp, σ')
    ∧ ((resp = Json 201 (status_body "ok")
        ∧ ∃ p, valid p ∧ p_name p ≠ ""
               ∧ σ' = State (<[patients := ps ++ [p]]> (st_heap σ)) (st_rng σ))
       ∨ ((resp = Unhandled ∨ ∃ msg, resp = Json 400 (error_body msg))
          ∧ σ' = σ)).
Proof.
  intros Hps.
  assert (∀ d, ∃ resp σ',
    add_patient str_strip int_of_str (JObj d) σ = Some (resp, σ')
    ∧ ((resp = Json 201 (status_body "ok")
        ∧ ∃ p, valid p ∧ p_name p ≠ ""
               ∧ σ' = State (<[patients := ps ++ [p]]> (st_heap σ)) (st_rng σ))
       ∨ ((resp = Unhandled ∨ ∃ msg, resp = Json 400 (error_body msg))
          ∧ σ' = σ))) as Hobj.
  { intros d. rewrite add_patient_obj.
    destruct (default (JStr "") (dict_get "name" d));
      try (eexists _, _; split; [done|]; right; by eauto).
    destruct (py_int _ _) as [start|];
      [|eexists _, _; split; [done|]; right; by eauto].
    destruct (py_int _ _) as [end_|];
      [|eexists _, _; split; [done|]; right; by eauto].
    case_decide as Hbad.
    - eexists _, _; split; [done|]; right; by eauto.
    - unfold bind, list_append, ret. rewrite Hps.
      eexists _, _; split; [done|]. left. split; [done|].
      eexists (_, _, _). split_and!; [| |done].
      + unfold valid, p_start, p_end; simpl. lia.
      + unfold p_name; simpl. tauto. }
  destruct body as [|b|n|f|s|l|d]; try apply Hobj.
  - destruct (Hobj []) as (resp & σ' & Hrun & Hcase). by eexists _, _.
  - destruct b.
    + eexists _, _; split; [done|]; right; by eauto.
    + destruct (Hobj []) as (resp & σ' & Hrun & Hcase). by eexists _, _.
  - unfold add_patient. simpl. case_bool_decide.
    + eexists _, _; split; [done|]; right; by eauto.
    + destruct (Hobj []) as (resp & σ' & Hrun & Hcase). by eexists _, _.
  - destruct f; try (eexists _, _; split; [done|]; right; by eauto).
    destruct (Hobj []) as (resp & σ' & Hrun & Hcase). by eexists _, _.
  - unfold add_patient. simpl. case_bool_decide.
    + eexists _, _; split; [done|]; right; by eauto.
    + destruct (Hobj []) as (resp & σ' & Hrun & Hcase). by eexists _, _.
  - unfold add_patient. simpl. case_bool_decide.
    + eexists _, _; split; [done|]; right; by eauto.
    + destruct (Hobj []) as (resp & σ' & Hrun & Hcase). by eexists _, _.
Qed.
End AddPatientFacts.

Section AutoGenerateFacts.
Context {rng : Type}.
Context (randint : Z → Z → rng → Z * rng).
Context (choice : list string → rng → string * rng).
Implicit Types (σ : state rng) (acc : list patient_t).

(** The contract of [random.randint]. *)
Hypothesis randint_range :
  ∀ a b g, a ≤ b → a ≤ (randint a b g).1 ≤ b.

Lemma auto_body_loop l σ acc :
  st_heap σ !! patients = Some acc →
  ∃ new g',
    for_each l (auto_body randint choice) () σ
    = Some ((), State (<[patients := acc ++ new]> (st_heap σ)) g')
    ∧ length new = length l
    ∧ Forall generated new.
Proof.
  revert σ acc. induction l as [|i l IH]; intros σ acc Hacc.
  - exists [], (st_rng σ). simpl. unfold ret. destruct σ as [h g]; simpl in *.
    by rewrite app_nil_r, insert_id.
  - cbn [for_each]. unfold bind at 1. unfold auto_body at 1.
    unfold bind, draw.
    destruct (choice names (st_rng σ)) as [c g1]. simpl.
    pose proof (randint_range 1 8 g1 ltac:(lia)) as Hstart.
    destruct (randint 1 8 g1) as [start g2]. simpl in *.
    pose proof (randint_range 1 4 g2 ltac:(lia)) as Hw.
    destruct (randint 1 4 g2) as [w g3]. simpl in *.
    unfold list_append. simpl. rewrite Hacc.
    set (p := (c +:+ py_str (i + 1), start, start + w)).
    destruct (IH (State (<[patients := acc ++ [p]]> (st_heap σ)) g3)
                (acc ++ [p])) as (new & g' & Hrun & Hlen & Hall).
    { simpl. apply lookup_insert_eq. }
    exists (p :: new), g'. split_and!.
    + etrans; [exact Hrun|]. simpl.
      by rewrite insert_insert_eq, <-app_assoc.
    + simpl. by rewrite Hlen.
    + constructor; [|done].
      unfold generated, p_start, p_end, p; simpl. lia.
Qed.
End AutoGenerateFacts.

(** ** The claims about the handlers and the state *)

Section ScheduleClaims.
Context {rng : Type}.
Implicit Types (σ : state rng) (ps xs : list patient_t) (r : loc).

Lemma schedule_nonempty σ ps :
  st_heap σ !! patients = Some ps → ps ≠ [] →
  ∃ σ',
    schedule σ
    = Some (Json 200 (JArr (patient_json <$> greedy_schedule ps)), σ')
    ∧ st_heap σ' !! patients = Some ps
    ∧ st_rng σ' = st_rng σ.
Proof.
  intros Hps Hne.
  destruct (greedy_schedule_obj_frame σ patients ps Hps)
    as (scheduled & σ' & Hrun & _ & Hout & Hrng & Hframe).
  exists σ'. unfold schedule, bind, read. rewrite Hps.
  rewrite decide_False by done. rewrite Hrun, Hout.
  split_and!; [done| |done]. by apply Hframe.
Qed.

(** A call of the scheduler shows in the state: it allocates. *)
Lemma greedy_schedule_obj_allocates σ r xs scheduled :
  st_heap σ !! r = Some xs →
  greedy_schedule_obj r σ ≠ Some (scheduled, σ).
Proof.
  intros Hxs Hrun'.
  destruct (greedy_schedule_obj_frame σ r xs Hxs)
    as (r' & σ' & Hrun & Hfresh & Hout & _).
  rewrite Hrun' in Hrun. simplify_eq.
Qed.

(** C4.  The scheduler returns the empty list for the empty list, and
    [schedule] on an empty collection answers 400 with the state as it
    was, which no call of the scheduler leaves behind. *)
Theorem schedule_empty_is_error σ :
  st_heap σ !! patients = Some [] →
  greedy_schedule [] = []
  ∧ schedule σ = Some (Json 400 (error_body "No patients"), σ)
  ∧ ∀ scheduled, greedy_schedule_obj patients σ ≠ Some (scheduled, σ).
Proof.
  intros Hps. split_and!.
  - reflexivity.
  - unfold schedule, bind, read. by rewrite Hps.
  - intros scheduled. by eapply greedy_schedule_obj_allocates.
Qed.

End ScheduleClaims.


Section AddPatientClaims.
Context {rng : Type}.
Context (str_strip : string → string).
Context (int_of_str : string → option Z).
Implicit Types (σ : state rng) (ps : list patient_t).

(** C3.  The claim fails on the code: the initial [last_end] is [-1],
    which is not below every valid start.  The valid interval
    [("a", -5, -3)] is accepted by [add_patient] into the empty
    collection ([strip] leaves the name ["a"] as it is), and the schedule
    of that collection is empty. *)
Theorem single_interval_below_sentinel_dropped (g : rng) :
  str_strip "a" = "a" →
  valid ("a", -5, -3)
  ∧ greedy_schedule [("a", -5, -3)] = []
  ∧ ∃ σ1 σ2,
      add_patient str_strip int_of_str
        (JObj [("name", JStr "a"); ("start", JInt (-5)); ("end", JInt (-3))])
        (initial_state g)
      = Some (Json 201 (status_body "ok"), σ1)
      ∧ st_heap σ1 !! patients = Some [("a", -5, -3)]
      ∧ schedule σ1 = Some (Json 200 (JArr []), σ2).
Proof.
  intros Hstrip. split_and!.
  - unfold valid, p_start, p_end; simpl. lia.
  - reflexivity.
  - exists (State {[ patients := [("a", -5, -3)] ]} g). eexists.
    split_and!.
    + rewrite add_patient_obj. simpl. rewrite Hstrip.
      vm_compute. reflexivity.
    + reflexivity.
    + vm_compute. reflexivity.
Qed.

(** [int] truncates a float towards zero and counts a boolean as 0 or
    1, so neither is rejected: with [start = 1.5] and [end = 3.0] the
    interval [("a", 1, 3)] is stored. *)
Example add_patient_truncates_float (g : rng) :
  str_strip "a" = "a" →
  add_patient str_strip int_of_str
    (JObj [("name", JStr "a");
           ("start", JFloat (S754_finite false 3 (-1)));
           ("end", JFloat (S754_finite false 3 0))])
    (initial_state g)
  = Some (Json 201 (status_body "ok"),
          State {[ patients := [("a", 1, 3)] ]} g).
Proof.
  intros Hstrip. rewrite add_patient_obj. simpl. rewrite Hstrip.
  vm_compute. reflexivity.
Qed.

(** What the handler needs of [str.strip]: nothing comes of nothing. *)
Hypothesis strip_empty : str_strip "" = "".

End AddPatientClaims.


Section AutoGenerateClaims.
Context {rng : Type}.
Context (randint : Z → Z → rng → Z * rng).
Context (choice : list string → rng → string * rng).
Implicit Types (σ : state rng) (ps : list patient_t).

(** The contract of [random.randint]. *)
Hypothesis randint_range :
  ∀ a b g, a ≤ b → a ≤ (randint a b g).1 ≤ b.

(** C10.  Whatever the collection held, after [auto_generate] it holds
    exactly 8 intervals, each with [1 <= start <= 8] and
    [start + 1 <= end <= start + 4], hence [start < end]; the answer
    reports the count 8, and no other list is touched. *)
Theorem auto_generate_eight_valid σ ps :
  st_heap σ !! patients = Some ps →
  ∃ ps' g',
    auto_generate randint choice σ
    = Some (Json 200 (JObj [("status", JStr "generated"); ("count", JInt 8)]),
            State (<[patients := ps']> (st_heap σ)) g')
    ∧ length ps' = 8%nat
    ∧ Forall generated ps'
    ∧ Forall valid ps'.
Proof.
  intros Hps. unfold auto_generate.
  unfold bind at 1. unfold list_clear. rewrite Hps.
  unfold bind at 1.
  destruct (auto_body_loop randint choice randint_range (range 8)
              (State (<[patients := []]> (st_heap σ)) (st_rng σ)) [])
    as (new & g' & Hrun & Hlen & Hall).
  { simpl. apply lookup_insert_eq. }
  rewrite Hrun. simpl in *. rewrite insert_insert_eq.
  exists new, g'. unfold bind, read, ret. simpl.
  rewrite lookup_insert_eq, Hlen. split_and!; [done..|].
  eapply Forall_impl; [exact Hall|].
  intros p [Hs He]. unfold valid. lia.
Qed.
End AutoGenerateClaims.

Section PurityClaims.
Context {rng : Type}.
Implicit Types (σ : state rng) (xs : list patient_t) (r : loc).

(** C7.  Scheduling a schedule gives it back; and of three calls in a
    row, two on the same list and one on the result of the first, each
    returns a list that holds the schedule of that list. *)
Theorem greedy_schedule_deterministic_idempotent σ patients_list xs :
  st_heap σ !! patients_list = Some xs →
  greedy_schedule (greedy_schedule xs) = greedy_schedule xs
  ∧ ∃ first second again σ',
      (let* first := greedy_schedule_obj patients_list in
       let* second := greedy_schedule_obj patients_list in
       let* again := greedy_schedule_obj first in
       ret (first, second, again)) σ
      = Some ((first, second, again), σ')
      ∧ st_heap σ' !! first = Some (greedy_schedule xs)
      ∧ st_heap σ' !! second = Some (greedy_schedule xs)
      ∧ st_heap σ' !! again = Some (greedy_schedule xs).
Proof.
  intros Hxs. split; [apply greedy_schedule_idem|].
  destruct (greedy_schedule_obj_frame σ patients_list xs Hxs)
    as (r1 & σ1 & Hrun1 & _ & Hout1 & _ & Hframe1).
  destruct (greedy_schedule_obj_frame σ1 patients_list xs (Hframe1 _ _ Hxs))
    as (r2 & σ2 & Hrun2 & _ & Hout2 & _ & Hframe2).
  destruct (greedy_schedule_obj_frame σ2 r1 _ (Hframe2 _ _ Hout1))
    as (r3 & σ3 & Hrun3 & _ & Hout3 & _ & Hframe3).
  exists r1, r2, r3, σ3. unfold bind, ret.
  rewrite Hrun1, Hrun2, Hrun3. rewrite greedy_schedule_idem in Hout3.
  split_and!; [done| | |done].
  - by apply Hframe3, Hframe2.
  - by apply Hframe3.
Qed.

(** C8.  A call on the list object [patients_list] that holds [xs]
    returns a list object that did not exist before and that holds
    [greedy_schedule xs], a function of [xs] alone; [patients_list]
    still holds [xs], every other list that existed holds what it
    held, and the state of [random] is as it was. *)
Theorem greedy_schedule_obj_no_side_effect σ patients_list xs :
  st_heap σ !! patients_list = Some xs →
  ∃ scheduled σ',
    greedy_schedule_obj patients_list σ = Some (scheduled, σ')
    ∧ st_heap σ' !! scheduled = Some (greedy_schedule xs)
    ∧ st_heap σ !! scheduled = None
    ∧ st_heap σ' !! patients_list = Some xs
    ∧ (∀ r l, st_heap σ !! r = Some l → st_heap σ' !! r = Some l)
    ∧ st_rng σ' = st_rng σ.
Proof.
  intros Hxs.
  destruct (greedy_schedule_obj_frame σ patients_list xs Hxs)
    as (scheduled & σ' & Hrun & Hfresh & Hout & Hrng & Hframe).
  exists scheduled, σ'. split_and!; try done. by apply Hframe.
Qed.
End PurityClaims.

(** ** The theorems at concrete states *)

(** [schedule_empty_is_error] on the state at start-up. *)
Lemma schedule_empty_is_error_witness :
  st_heap (initial_state ()) !! patients = Some []
  ∧ (greedy_schedule [] = []
     ∧ schedule (initial_state ())
       = Some (Json 400 (error_body "No patients"), initial_state ())
     ∧ ∀ scheduled,
         greedy_schedule_obj patients (initial_state ())
         ≠ Some (scheduled, initial_state ())).
Proof.
  split; [reflexivity|].
  apply (schedule_empty_is_error (initial_state ())). reflexivity.
Defined.


(** [single_interval_below_sentinel_dropped] with a [strip] that leaves
    ["a"] as it is. *)
Lemma single_interval_below_sentinel_dropped_witness :
  strip_nothing "a" = "a"
  ∧ (valid ("a", -5, -3)
     ∧ greedy_schedule [("a", -5, -3)] = []
     ∧ ∃ σ1 σ2,
         add_patient strip_nothing (λ _, None)
           (JObj [("name", JStr "a"); ("start", JInt (-5)); ("end", JInt (-3))])
           (initial_state ())
         = Some (Json 201 (status_body "ok"), σ1)
         ∧ st_heap σ1 !! patients = Some [("a", -5, -3)]
         ∧ schedule σ1 = Some (Json 200 (JArr []), σ2)).
Proof.
  split; [reflexivity|].
  apply (single_interval_below_sentinel_dropped strip_nothing (λ _, None) ()).
  reflexivity.
Defined.

(** [greedy_schedule_deterministic_idempotent] on a collection of three. *)
Lemma greedy_schedule_deterministic_idempotent_witness :
  st_heap three_patients !! patients
  = Some [("p", 1, 5); ("q", 2, 3); ("r", 4, 6)]
  ∧ (greedy_schedule (greedy_schedule [("p", 1, 5); ("q", 2, 3); ("r", 4, 6)])
     = greedy_schedule [("p", 1, 5); ("q", 2, 3); ("r", 4, 6)]
     ∧ ∃ first second again σ',
         (let* first := greedy_schedule_obj patients in
          let* second := greedy_schedule_obj patients in
          let* again := greedy_schedule_obj first in
          ret (first, second, again)) three_patients
         = Some ((first, second, again), σ')
         ∧ st_heap σ' !! first
           = Some (greedy_schedule [("p", 1, 5); ("q", 2, 3); ("r", 4, 6)])
         ∧ st_heap σ' !! second
           = Some (greedy_schedule [("p", 1, 5); ("q", 2, 3); ("r", 4, 6)])
         ∧ st_heap σ' !! again
           = Some (greedy_schedule [("p", 1, 5); ("q", 2, 3); ("r", 4, 6)])).
Proof.
  split; [reflexivity|].
  apply (greedy_schedule_deterministic_idempotent three_patients patients
           [("p", 1, 5); ("q", 2, 3); ("r", 4, 6)]).
  reflexivity.
Defined.

(** [greedy_schedule_obj_no_side_effect] on a collection of three. *)
Lemma greedy_schedule_obj_no_side_effect_witness :
  st_heap three_patients !! patients
  = Some [("p", 1, 5); ("q", 2, 3); ("r", 4, 6)]
  ∧ ∃ scheduled σ',
      greedy_schedule_obj patients three_patients = Some (scheduled, σ')
      ∧ st_heap σ' !! scheduled = Some [("q", 2, 3); ("r", 4, 6)]
      ∧ st_heap three_patients !! scheduled = None
      ∧ st_heap σ' !! patients = Some [("p", 1, 5); ("q", 2, 3); ("r", 4, 6)]
      ∧ (∀ r l, st_heap three_patients !! r = Some l → st_heap σ' !! r = Some l)
      ∧ st_rng σ' = st_rng three_patients.
Proof.
  split; [reflexivity|].
  apply (greedy_schedule_obj_no_side_effect three_patients patients
           [("p", 1, 5); ("q", 2, 3); ("r", 4, 6)]).
  reflexivity.
Defined.

(** [auto_generate_eight_valid] with the draws [randint_low] and
    [choice_first]. *)
Lemma auto_generate_eight_valid_witness :
  (∀ a b g, a ≤ b → a ≤ (randint_low a b g).1 ≤ b)
  ∧ st_heap three_patients !! patients
    = Some [("p", 1, 5); ("q", 2, 3); ("r", 4, 6)]
  ∧ ∃ ps' g',
      auto_generate randint_low choice_first three_patients
      = Some (Json 200 (JObj [("status", JStr "generated"); ("count", JInt 8)]),
              State (<[patients := ps']> (st_heap three_patients)) g')
      ∧ length ps' = 8%nat
      ∧ Forall generated ps'
      ∧ Forall valid ps'.
Proof.
  assert (∀ a b g, a ≤ b → a ≤ (randint_low a b g).1 ≤ b) as Hrange.
  { intros a b g Hab. simpl. lia. }
  split; [exact Hrange|]. split; [reflexivity|].
  apply (auto_generate_eight_valid randint_low choice_first Hrange
           three_patients [("p", 1, 5); ("q", 2, 3); ("r", 4, 6)]).
  reflexivity.
Defined.

(** [greedy_schedule_sound] on the two accepted intervals of a collection
    of three. *)
Lemma greedy_schedule_sound_witness :
  (0 < 1)%nat
  ∧ greedy_schedule [("p", 1, 5); ("q", 2, 3); ("r", 4, 6)] !! 0%nat
    = Some ("q", 2, 3)
  ∧ greedy_schedule [("p", 1, 5); ("q", 2, 3); ("r", 4, 6)] !! 1%nat
    = Some ("r", 4, 6)
  ∧ (p_start ("r", 4, 6) >= p_end ("q", 2, 3)
     ∧ p_end ("q", 2, 3) ≤ p_end ("r", 4, 6)).
Proof.
  split; [lia|]. split; [reflexivity|]. split; [reflexivity|].
  apply (proj2 (proj2 (proj2
           (greedy_schedule_sound [("p", 1, 5); ("q", 2, 3); ("r", 4, 6)])))
           0%nat 1%nat); [lia|reflexivity|reflexivity].
Defined.


(** * Further properties of the scheduler *)

(** ** When the schedule is empty, and how it starts *)

Lemma select_nil_iff l last_end :
  select l last_end = [] ↔ Forall (λ p, p_start p < last_end) l.
Proof.
  revert last_end. induction l as [|p l IH]; intros last_end; simpl.
  - split; [constructor|done].
  - rewrite Forall_cons. case_decide as Hacc.
    + split; [done|]. intros [Hp _]. lia.
    + rewrite IH. split; [|tauto]. intros Hl. split; [lia|done].
Qed.

(** X2.  The schedule is empty exactly when every interval of the input
    starts below the initial [last_end = -1]; in particular an input with
    one interval that starts at [-1] or later has a schedule that is not
    empty. *)
Theorem greedy_schedule_nil_iff xs :
  greedy_schedule xs = [] ↔ Forall (λ p, p_start p < -1) xs.
Proof.
  rewrite greedy_schedule_select, select_nil_iff.
  by rewrite sorted_Permutation.
Qed.

Lemma select_cons_accepted p l last_end :
  last_end ≤ p_start p →
  select (p :: l) last_end = p :: select l (p_end p).
Proof. intros Hp. simpl. by rewrite decide_True by lia. Qed.

(** X3.  When no interval starts below [-1], the schedule of an input
    that is not empty begins with the interval that ends first, and among
    the intervals of that end with the first of the input. *)
Theorem greedy_schedule_head xs :
  Forall (λ p, -1 ≤ p_start p) xs → xs ≠ [] →
  ∃ p, head (greedy_schedule xs) = Some p
       ∧ Forall (λ q, p_end p ≤ p_end q) xs
       ∧ head (filter (λ q, p_end q = p_end p) xs) = Some p.
Proof.
  intros Hlo Hne. rewrite greedy_schedule_select.
  pose proof (sorted_StronglySorted p_end xs) as Hs.
  pose proof (sorted_Permutation p_end xs) as Hperm.
  pose proof (sorted_stable p_end xs) as Hst.
  destruct (sorted p_end xs) as [|p l] eqn:Heq.
  { apply Permutation_nil_l in Hperm. by subst. }
  exists p. apply StronglySorted_cons in Hs as [Hp _].
  rewrite select_cons_accepted; last first.
  { rewrite <-Hperm in Hlo. by apply Forall_cons in Hlo as [? _]. }
  split_and!; [done| |].
  - rewrite <-Hperm. constructor; [done|exact Hp].
  - rewrite <-Hst. by rewrite filter_cons_True.
Qed.

(** ** Every rejection has a reason *)

Lemma select_rejected_overlaps l last_end p :
  StronglySorted (key_le p_end) l → Forall valid l → p ∈ l →
  p ∈ select l last_end
  ∨ (∃ a, a ∈ select l last_end ∧ ¬ non_overlapping a p)
  ∨ p_start p < last_end.
Proof.
  intros Hs. revert last_end.
  induction Hs as [|q l Hs IH Hq]; intros last_end Hv Hp; [by inv Hp|].
  apply Forall_cons in Hv as [Hvq Hv]. simpl.
  apply elem_of_cons in Hp as [->|Hp].
  - case_decide; [left; left|right; right; lia].
  - case_decide as Hacc.
    + destruct (IH (p_end q) Hv Hp) as [Hin|[(a & Ha & Hov)|Hlt]].
      * left. by right.
      * right; left. exists a. split; [by right|done].
      * right; left. exists q. split; [left|].
        rewrite Forall_forall in Hq. specialize (Hq _ Hp).
        unfold non_overlapping, valid, key_le in *. lia.
    + destruct (IH last_end Hv Hp) as [Hin|[(a & Ha & Hov)|Hlt]]; eauto.
Qed.

(** X6.  On valid intervals none of which starts below [-1], an interval
    of the input is either in the schedule or overlaps an interval of the
    schedule: nothing could be added to the schedule. *)
Theorem greedy_schedule_rejected_overlaps xs p :
  Forall valid xs → Forall (λ q, -1 ≤ p_start q) xs → p ∈ xs →
  p ∈ greedy_schedule xs
  ∨ ∃ a, a ∈ greedy_schedule xs ∧ ¬ non_overlapping a p.
Proof.
  intros Hv Hlo Hp. rewrite greedy_schedule_select.
  destruct (select_rejected_overlaps (sorted p_end xs) (-1) p)
    as [Hin|[Hov|Hlt]]; [apply sorted_StronglySorted|..|by left|by right|].
  - by rewrite sorted_Permutation.
  - by rewrite sorted_Permutation.
  - rewrite Forall_forall in Hlo. specialize (Hlo _ Hp). lia.
Qed.

(** ** The size of the schedule *)

Lemma select_from_sentinel l last_end :
  Forall valid l → -1 ≤ last_end →
  Forall (λ p, -1 ≤ p_start p) (select l last_end).
Proof.
  intros Hv. revert last_end.
  induction Hv as [|p l Hp Hv IH]; intros last_end Hlo; simpl; [done|].
  case_decide as Hacc; [|by apply IH].
  constructor; [lia|]. apply IH. unfold valid in Hp. lia.
Qed.

(** X1.  On valid intervals, the schedule is a selection of
    non-overlapping intervals of the input that start at [-1] or later,
    and no selection of non-overlapping intervals of the input that start
    at [-1] or later, in whatever order, is longer.  When no interval of
    the input starts below [-1], that is every selection. *)
Theorem greedy_schedule_maximum xs ys :
  Forall valid xs →
  ys ⊆+ xs → Forall (λ p, -1 ≤ p_start p) ys →
  pairwise_non_overlapping ys →
  greedy_schedule xs ⊆+ xs
  ∧ Forall (λ p, -1 ≤ p_start p) (greedy_schedule xs)
  ∧ pairwise_non_overlapping (greedy_schedule xs)
  ∧ (length ys ≤ length (greedy_schedule xs))%nat.
Proof.
  intros Hv Hsub Hlo Hpw. rewrite greedy_schedule_select. split_and!.
  - trans (sorted p_end xs).
    + apply sublist_submseteq, select_sublist.
    + apply Permutation_submseteq, sorted_Permutation.
  - apply select_from_sentinel; [by rewrite sorted_Permutation|done].
  - apply precedes_non_overlapping, select_precedes, sorted_StronglySorted.
  - apply select_optimal; [apply sorted_StronglySorted|..|done|done].
    + by rewrite sorted_Permutation.
    + by rewrite sorted_Permutation.
Qed.

Lemma greedy_schedule_submseteq xs : greedy_schedule xs ⊆+ xs.
Proof.
  rewrite greedy_schedule_select. trans (sorted p_end xs).
  - apply sublist_submseteq, select_sublist.
  - apply Permutation_submseteq, sorted_Permutation.
Qed.

Lemma greedy_schedule_pairwise xs :
  pairwise_non_overlapping (greedy_schedule xs).
Proof.
  rewrite greedy_schedule_select.
  apply precedes_non_overlapping, select_precedes, sorted_StronglySorted.
Qed.

(** X7.  More candidates never give a shorter schedule: when [xs] is
    part of the valid input [xs'], none of whose intervals starts below
    [-1], the schedule of [xs'] is at least as long as that of [xs]. *)
Theorem greedy_schedule_monotone xs xs' :
  Forall valid xs' → Forall (λ p, -1 ≤ p_start p) xs' →
  xs ⊆+ xs' →
  (length (greedy_schedule xs) ≤ length (greedy_schedule xs'))%nat.
Proof.
  intros Hv Hlo Hsub. apply greedy_schedule_optimal; [done..| |].
  - trans xs; [apply greedy_schedule_submseteq|done].
  - apply greedy_schedule_pairwise.
Qed.

Lemma sublist_length_eq {A} (l1 l2 : list A) :
  l1 `sublist_of` l2 → (length l2 ≤ length l1)%nat → l1 = l2.
Proof.
  induction 1 as [|x l1 l2 Hsub IH|x l1 l2 Hsub IH]; simpl; intros Hlen.
  - done.
  - f_equal. apply IH. lia.
  - apply sublist_length in Hsub. lia.
Qed.

(** X5.  When the valid intervals of the input, none of which starts
    below [-1], do not overlap each other, all of them are scheduled: the
    schedule is the input in ascending order of end. *)
Theorem greedy_schedule_compatible xs :
  Forall valid xs → Forall (λ p, -1 ≤ p_start p) xs →
  pairwise_non_overlapping xs →
  greedy_schedule xs = sorted p_end xs.
Proof.
  intros Hv Hlo Hpw. rewrite greedy_schedule_select.
  apply sublist_length_eq; [apply select_sublist|].
  rewrite sorted_length, <-greedy_schedule_select.
  by apply greedy_schedule_optimal.
Qed.

(** ** The order of the input *)

Lemma NoDup_fmap_elem_inj {A B} (f : A → B) (l : list A) x y :
  NoDup (f <$> l) → x ∈ l → y ∈ l → f x = f y → x = y.
Proof.
  induction l as [|z l IH]; simpl; intros Hnd Hx Hy Hf; [by inv Hx|].
  apply NoDup_cons in Hnd as [Hz Hnd].
  apply elem_of_cons in Hx as [->|Hx]; apply elem_of_cons in Hy as [->|Hy].
  - done.
  - destruct Hz. rewrite Hf. by apply list_elem_of_fmap_2.
  - destruct Hz. rewrite <-Hf. by apply list_elem_of_fmap_2.
  - by apply IH.
Qed.

(** X4.  When all ends differ, the schedule does not depend on the order
    of the input. *)
Theorem greedy_schedule_Permutation xs ys :
  NoDup (p_end <$> xs) → xs ≡ₚ ys →
  greedy_schedule xs = greedy_schedule ys.
Proof.
  intros Hnd Hperm. rewrite !greedy_schedule_select. f_equal.
  apply (StronglySorted_unique_strong (key_le p_end));
    [|apply sorted_StronglySorted..|by rewrite !sorted_Permutation].
  intros x1 x2 Hx1 Hx2 H12 H21.
  rewrite sorted_Permutation in Hx1.
  rewrite sorted_Permutation, <-Hperm in Hx2.
  apply (NoDup_fmap_elem_inj p_end xs); [done..|].
  unfold key_le in *. lia.
Qed.

(** * Further properties of the handlers *)

(** ** One handler at a time *)

Section HandlerRuns.
Context {rng : Type}.
Context (str_strip : string → string).
Context (int_of_str : string → option Z).
Implicit Types (σ : state rng) (ps : list patient_t).

Lemma get_patients_run σ ps :
  st_heap σ !! patients = Some ps →
  get_patients σ = Some (Json 200 (JArr (patient_json <$> ps)), σ).
Proof. intros Hps. unfold get_patients, bind, read, ret. by rewrite Hps. Qed.

Lemma clear_patients_run σ ps :
  st_heap σ !! patients = Some ps →
  clear_patients σ
  = Some (Json 200 (status_body "cleared"),
          State (<[patients := []]> (st_heap σ)) (st_rng σ)).
Proof.
  intros Hps. unfold clear_patients, bind, list_clear, ret. by rewrite Hps.
Qed.

Lemma schedule_empty σ :
  st_heap σ !! patients = Some [] →
  schedule σ = Some (Json 400 (error_body "No patients"), σ).
Proof. intros Hps. unfold schedule, bind, read. by rewrite Hps. Qed.

Lemma add_patient_accepted σ ps d n s e :
  st_heap σ !! patients = Some ps →
  dict_get "name" d = Some (JStr n) → str_strip n ≠ "" →
  py_int int_of_str (default JNull (dict_get "start" d)) = Some s →
  py_int int_of_str (default JNull (dict_get "end" d)) = Some e →
  s < e →
  add_patient str_strip int_of_str (JObj d) σ
  = Some (Json 201 (status_body "ok"),
          State (<[patients := ps ++ [(str_strip n, s, e)]]> (st_heap σ))
                (st_rng σ)).
Proof.
  intros Hps Hn Hstr Hs He Hse. rewrite add_patient_obj, Hn, Hs, He. simpl.
  rewrite decide_False by (intros [?|?]; [done|lia]).
  unfold bind, list_append, ret. by rewrite Hps.
Qed.

(** X8.  On a collection that is not empty, [schedule] answers 200 with
    the schedule of the collection, in JSON, and the collection and the
    state of [random] are as before: asked again, it answers the same. *)
Theorem schedule_repeatable σ ps :
  st_heap σ !! patients = Some ps → ps ≠ [] →
  ∃ σ1 σ2,
    schedule σ
    = Some (Json 200 (JArr (patient_json <$> greedy_schedule ps)), σ1)
    ∧ schedule σ1
      = Some (Json 200 (JArr (patient_json <$> greedy_schedule ps)), σ2)
    ∧ st_heap σ2 !! patients = Some ps
    ∧ st_rng σ2 = st_rng σ.
Proof.
  intros Hps Hne.
  destruct (schedule_nonempty σ ps Hps Hne) as (σ1 & Hrun1 & Hps1 & Hg1).
  destruct (schedule_nonempty σ1 ps Hps1 Hne) as (σ2 & Hrun2 & Hps2 & Hg2).
  exists σ1, σ2. split_and!; [done..|congruence].
Qed.

(** X9.  After [clear_patients] the listing is empty and [schedule]
    answers 400, whatever the collection held; no other list is
    touched. *)
Theorem clear_then_list_and_schedule σ ps :
  st_heap σ !! patients = Some ps →
  (let* a := clear_patients in
   let* b := get_patients in
   let* c := schedule in
   ret (a, b, c)) σ
  = Some ((Json 200 (status_body "cleared"),
           Json 200 (JArr []),
           Json 400 (error_body "No patients")),
          State (<[patients := []]> (st_heap σ)) (st_rng σ)).
Proof.
  intros Hps. unfold bind at 1. rewrite (clear_patients_run σ ps Hps).
  unfold bind at 1. erewrite get_patients_run; last first.
  { simpl. apply lookup_insert_eq. }
  unfold bind at 1. rewrite schedule_empty; [done|].
  simpl. apply lookup_insert_eq.
Qed.

(** X10.  A request that [add_patient] accepts shows in the listing: the
    listing after it is the listing before it followed by the new
    interval, with the name stripped. *)
Theorem add_then_list σ ps d n s e :
  st_heap σ !! patients = Some ps →
  dict_get "name" d = Some (JStr n) → str_strip n ≠ "" →
  py_int int_of_str (default JNull (dict_get "start" d)) = Some s →
  py_int int_of_str (default JNull (dict_get "end" d)) = Some e →
  s < e →
  ∃ σ',
    (let* a := add_patient str_strip int_of_str (JObj d) in
     let* b := get_patients in
     ret (a, b)) σ
    = Some ((Json 201 (status_body "ok"),
             Json 200 (JArr ((patient_json <$> ps)
                             ++ [patient_json (str_strip n, s, e)]))),
            σ')
    ∧ st_heap σ' !! patients = Some (ps ++ [(str_strip n, s, e)]).
Proof.
  intros Hps Hn Hstr Hs He Hse. eexists.
  unfold bind at 1. rewrite (add_patient_accepted σ ps d n s e) by done.
  unfold bind at 1. erewrite get_patients_run; last first.
  { simpl. apply lookup_insert_eq. }
  rewrite fmap_app. simpl. split; [done|]. apply lookup_insert_eq.
Qed.

(** X14.  The listing can be posted back: the JSON of an interval with
    [start < end] and a name that is not empty and that [strip] leaves as
    it is, is accepted by [add_patient], and the interval stored is the
    same. *)
Theorem add_patient_json_round_trip σ ps n s e :
  st_heap σ !! patients = Some ps →
  str_strip n = n → n ≠ "" → s < e →
  add_patient str_strip int_of_str (patient_json (n, s, e)) σ
  = Some (Json 201 (status_body "ok"),
          State (<[patients := ps ++ [(n, s, e)]]> (st_heap σ)) (st_rng σ)).
Proof.
  intros Hps Hstrip Hne Hse. unfold patient_json. simpl.
  rewrite (add_patient_accepted σ ps _ n s e); rewrite ?Hstrip; done.
Qed.

(** What the handler needs of [str.strip]: nothing comes of nothing. *)
Hypothesis strip_empty : str_strip "" = "".

(** X15.  Which error [add_patient] answers, with the state as it was.
    A body that counts as false ([null], [false], [0], an empty string,
    list or object) gets 400 "Start and End must be integers"; a body
    that is neither false nor an object, and a name that is no string,
    raise.  For an object: 400 "Start and End must be integers" is
    answered exactly when the name is missing or a string and [int]
    raises on [start] or on [end]; 400 "Invalid name or time values" is
    answered exactly when [int] gives both and the name is missing, or is
    a string that is empty once stripped, or is a string and
    [start >= end]. *)
Theorem add_patient_errors σ :
  (∀ body, py_truthy body = false →
     add_patient str_strip int_of_str body σ
     = Some (Json 400 (error_body "Start and End must be integers"), σ))
  ∧ (∀ body, py_truthy body = true → (∀ d, body ≠ JObj d) →
       add_patient str_strip int_of_str body σ = Some (Unhandled, σ))
  ∧ (∀ d v, dict_get "name" d = Some v → (∀ n, v ≠ JStr n) →
       add_patient str_strip int_of_str (JObj d) σ = Some (Unhandled, σ))
  ∧ (∀ d,
       add_patient str_strip int_of_str (JObj d) σ
       = Some (Json 400 (error_body "Start and End must be integers"), σ)
       ↔ (dict_get "name" d = None ∨ ∃ n, dict_get "name" d = Some (JStr n))
         ∧ (py_int int_of_str (default JNull (dict_get "start" d)) = None
            ∨ py_int int_of_str (default JNull (dict_get "end" d)) = None))
  ∧ (∀ d,
       add_patient str_strip int_of_str (JObj d) σ
       = Some (Json 400 (error_body "Invalid name or time values"), σ)
       ↔ ∃ s e,
           py_int int_of_str (default JNull (dict_get "start" d)) = Some s
           ∧ py_int int_of_str (default JNull (dict_get "end" d)) = Some e
           ∧ (dict_get "name" d = None
              ∨ ∃ n, dict_get "name" d = Some (JStr n)
                     ∧ (str_strip n = "" ∨ s >= e))).
Proof.
  assert (∀ x, (do list_append patients x then
                ret (Json 201 (status_body "ok"))) σ
               ≠ Some (Json 400 (error_body "Start and End must be integers"), σ)
               ∧ (do list_append patients x then
                  ret (Json 201 (status_body "ok"))) σ
                 ≠ Some (Json 400 (error_body "Invalid name or time values"), σ))
    as Hok.
  { intros x. unfold bind, list_append, ret.
    destruct (st_heap σ !! patients); split; intros ?; simplify_eq. }
  split_and!.
  - intros body Hf. unfold add_patient. by rewrite Hf.
  - intros body Ht Hobj. unfold add_patient. rewrite Ht.
    destruct body; try done. by destruct (Hobj d).
  - intros d v Hv Hstr. rewrite add_patient_obj, Hv. simpl.
    destruct v; try done. by destruct (Hstr s).
  - intros d. rewrite add_patient_obj.
    destruct (dict_get "name" d) as [v|] eqn:Hname; simpl.
    + destruct v as [| | | |n| |];
        try solve [split; [intros ?; simplify_eq
                          |intros [[?|[? ?]] _]; simplify_eq]].
      destruct (py_int int_of_str (default JNull (dict_get "start" d)))
        as [s|] eqn:Hs; [|split; by eauto 6].
      destruct (py_int int_of_str (default JNull (dict_get "end" d)))
        as [e|] eqn:He; [|split; by eauto 6].
      split; [|intros [_ [?|?]]; simplify_eq].
      case_decide; [intros ?; simplify_eq|]. intros Hrun.
      by destruct (proj1 (Hok (str_strip n, s, e))).
    + destruct (py_int int_of_str (default JNull (dict_get "start" d)))
        as [s|] eqn:Hs; [|split; by eauto 6].
      destruct (py_int int_of_str (default JNull (dict_get "end" d)))
        as [e|] eqn:He; [|split; by eauto 6].
      split; [|intros [_ [?|?]]; simplify_eq].
      case_decide; [intros ?; simplify_eq|]. intros Hrun.
      by destruct (proj1 (Hok (str_strip "", s, e))).
  - intros d. rewrite add_patient_obj.
    destruct (dict_get "name" d) as [v|] eqn:Hname; simpl.
    + destruct v as [| | | |n| |];
        try solve [split; [intros ?; simplify_eq
                          |intros (? & ? & _ & _ & [?|(? & ? & _)]);
                           simplify_eq]].
      destruct (py_int int_of_str (default JNull (dict_get "start" d)))
        as [s|] eqn:Hs;
        [|split; [intros ?; simplify_eq|intros (? & ? & ? & _); simplify_eq]].
      destruct (py_int int_of_str (default JNull (dict_get "end" d)))
        as [e|] eqn:He;
        [|split; [intros ?; simplify_eq|intros (? & ? & _ & ? & _); simplify_eq]].
      case_decide as Hbad.
      * split; [intros _|done]. exists s, e. split_and!; [done..|].
        right. by exists n.
      * split.
        -- intros Hrun. by destruct (proj2 (Hok (str_strip n, s, e))).
        -- intros (s' & e' & ? & ? & [?|(n' & ? & Hb)]); simplify_eq.
           by destruct Hbad.
    + destruct (py_int int_of_str (default JNull (dict_get "start" d)))
        as [s|] eqn:Hs;
        [|split; [intros ?; simplify_eq|intros (? & ? & ? & _); simplify_eq]].
      destruct (py_int int_of_str (default JNull (dict_get "end" d)))
        as [e|] eqn:He;
        [|split; [intros ?; simplify_eq|intros (? & ? & _ & ? & _); simplify_eq]].
      rewrite decide_True by (left; exact strip_empty).
      split; [intros _|done]. exists s, e. split_and!; [done..|]. by left.
Qed.
End HandlerRuns.

(** ** Generated names *)

Lemma append_nonempty_r (s1 s2 : string) : s2 ≠ "" → s1 +:+ s2 ≠ "".
Proof. destruct s1; simpl; [done|discriminate]. Qed.

Lemma last_char_append (s1 s2 : string) :
  s2 ≠ "" → last_char (s1 +:+ s2) = last_char s2.
Proof.
  intros Hs2. induction s1 as [|c s1 IH]; simpl; [done|].
  pose proof (append_nonempty_r s1 s2 Hs2) as Hne.
  destruct (s1 +:+ s2); [done|]. exact IH.
Qed.

Lemma named_by_round_last_char l new :
  Forall2 named_by_round l new →
  Forall (λ i, py_str (i + 1) ≠ "") l →
  last_char <$> (p_name <$> new) = (λ i, last_char (py_str (i + 1))) <$> l.
Proof.
  induction 1 as [|i p l new [c Hc] _ IH]; intros Hne; simpl; [done|].
  apply Forall_cons in Hne as [Hi Hne].
  rewrite Hc, last_char_append by done. f_equal. by apply IH.
Qed.

Lemma named_by_round_nonempty l new :
  Forall2 named_by_round l new →
  Forall (λ i, py_str (i + 1) ≠ "") l →
  Forall (λ p, p_name p ≠ "") new.
Proof.
  induction 1 as [|i p l new [c Hc] _ IH]; intros Hne; [done|].
  apply Forall_cons in Hne as [Hi Hne]. constructor; [|by apply IH].
  rewrite Hc. by apply append_nonempty_r.
Qed.

Lemma range_8_digits : Forall (λ i, py_str (i + 1) ≠ "") (range 8).
Proof. repeat constructor; vm_compute; discriminate. Qed.

Lemma range_8_last_char :
  (λ i, last_char (py_str (i + 1))) <$> range 8
  = Some <$> ["1"; "2"; "3"; "4"; "5"; "6"; "7"; "8"]%char.
Proof. vm_compute. reflexivity. Qed.

Section AutoGenerateRuns.
Context {rng : Type}.
Context (randint : Z → Z → rng → Z * rng).
Context (choice : list string → rng → string * rng).
Implicit Types (σ : state rng) (ps acc : list patient_t).

(** The contract of [random.randint]. *)
Hypothesis randint_range :
  ∀ a b g, a ≤ b → a ≤ (randint a b g).1 ≤ b.

Lemma auto_body_loop_names l σ acc :
  st_heap σ !! patients = Some acc →
  ∃ new g',
    for_each l (auto_body randint choice) () σ
    = Some ((), State (<[patients := acc ++ new]> (st_heap σ)) g')
    ∧ Forall generated new
    ∧ Forall2 named_by_round l new.
Proof.
  revert σ acc. induction l as [|i l IH]; intros σ acc Hacc.
  - exists [], (st_rng σ). simpl. unfold ret. destruct σ as [h g]; simpl in *.
    by rewrite app_nil_r, insert_id.
  - cbn [for_each]. unfold bind at 1. unfold auto_body at 1.
    unfold bind, draw.
    destruct (choice names (st_rng σ)) as [c g1]. simpl.
    pose proof (randint_range 1 8 g1 ltac:(lia)) as Hstart.
    destruct (randint 1 8 g1) as [start g2]. simpl in *.
    pose proof (randint_range 1 4 g2 ltac:(lia)) as Hw.
    destruct (randint 1 4 g2) as [w g3]. simpl in *.
    unfold list_append. simpl. rewrite Hacc.
    set (p := (c +:+ py_str (i + 1), start, start + w)).
    destruct (IH (State (<[patients := acc ++ [p]]> (st_heap σ)) g3)
                (acc ++ [p])) as (new & g' & Hrun & Hall & Hnames).
    { simpl. apply lookup_insert_eq. }
    exists (p :: new), g'. split_and!.
    + etrans; [exact Hrun|]. simpl.
      by rewrite insert_insert_eq, <-app_assoc.
    + constructor; [|done].
      unfold generated, p_start, p_end, p; simpl. lia.
    + constructor; [|done]. by exists c.
Qed.

Lemma auto_generate_run σ ps :
  st_heap σ !! patients = Some ps →
  ∃ ps' g',
    auto_generate randint choice σ
    = Some (Json 200 (JObj [("status", JStr "generated"); ("count", JInt 8)]),
            State (<[patients := ps']> (st_heap σ)) g')
    ∧ Forall generated ps'
    ∧ Forall2 named_by_round (range 8) ps'.
Proof.
  intros Hps. unfold auto_generate.
  unfold bind at 1. unfold list_clear. rewrite Hps.
  unfold bind at 1.
  destruct (auto_body_loop_names (range 8)
              (State (<[patients := []]> (st_heap σ)) (st_rng σ)) [])
    as (new & g' & Hrun & Hall & Hnames).
  { simpl. apply lookup_insert_eq. }
  rewrite Hrun. simpl in *. rewrite insert_insert_eq.
  exists new, g'. unfold bind, read, ret. simpl.
  rewrite lookup_insert_eq.
  apply Forall2_length in Hnames as Hlen. simpl in Hlen.
  rewrite <-Hlen. done.
Qed.

(** X12.  The names that [auto_generate] gives are pairwise distinct and
    none is empty: the name of round [i] ends with the digit [i + 1]. *)
Theorem auto_generate_names_distinct σ ps :
  st_heap σ !! patients = Some ps →
  ∃ ps' resp g',
    auto_generate randint choice σ
    = Some (resp, State (<[patients := ps']> (st_heap σ)) g')
    ∧ NoDup (p_name <$> ps')
    ∧ Forall (λ p, p_name p ≠ "") ps'
    ∧ last_char <$> (p_name <$> ps')
      = Some <$> ["1"; "2"; "3"; "4"; "5"; "6"; "7"; "8"]%char.
Proof.
  intros Hps.
  destruct (auto_generate_run σ ps Hps) as (ps' & g' & Hrun & _ & Hnames).
  pose proof (named_by_round_last_char _ _ Hnames range_8_digits) as Hlast.
  rewrite range_8_last_char in Hlast.
  eexists ps', _, g'. split_and!; [exact Hrun| | |exact Hlast].
  - apply (NoDup_fmap_1 last_char). rewrite Hlast.
    apply NoDup_fmap_2; [apply _|].
    apply (bool_decide_unpack _). vm_compute. exact I.
  - by apply named_by_round_nonempty with (range 8), range_8_digits.
Qed.

(** X13.  After [auto_generate], [schedule] answers 200 with a schedule
    that is not empty and that no selection of non-overlapping intervals
    of the eight generated ones exceeds in length. *)
Theorem auto_then_schedule σ ps :
  st_heap σ !! patients = Some ps →
  ∃ ps' a σ',
    (let* a := auto_generate randint choice in
     let* b := schedule in
     ret (a, b)) σ
    = Some ((a, Json 200 (JArr (patient_json <$> greedy_schedule ps'))), σ')
    ∧ st_heap σ' !! patients = Some ps'
    ∧ length ps' = 8%nat
    ∧ greedy_schedule ps' ≠ []
    ∧ ∀ ys, ys ⊆+ ps' → pairwise_non_overlapping ys →
            (length ys ≤ length (greedy_schedule ps'))%nat.
Proof.
  intros Hps.
  destruct (auto_generate_run σ ps Hps) as (ps' & g' & Hrun & Hgen & Hnames).
  apply Forall2_length in Hnames as Hlen. simpl in Hlen.
  assert (ps' ≠ []) as Hne by (intros ->; done).
  destruct (schedule_nonempty (State (<[patients := ps']> (st_heap σ)) g') ps')
    as (σ' & Hrun' & Hps' & _); [apply lookup_insert_eq|done|].
  eexists ps', _, σ'. unfold bind. rewrite Hrun, Hrun'.
  split_and!; [done|done|done| |].
  - rewrite greedy_schedule_select, select_nil_iff, sorted_Permutation.
    intros Hall. destruct ps' as [|p ps']; [done|].
    apply Forall_cons in Hall as [Hp _].
    apply Forall_cons in Hgen as [[Hs _] _]. lia.
  - intros ys Hsub Hpw. apply greedy_schedule_optimal; [| |done..].
    + eapply Forall_impl; [exact Hgen|]. intros p [? ?]. unfold valid. lia.
    + eapply Forall_impl; [exact Hgen|]. intros p [? ?]. simpl. lia.
Qed.
End AutoGenerateRuns.

(** ** An invariant of the collection *)

Section ServeFacts.
Context {rng : Type}.
Context (str_strip : string → string).
Context (int_of_str : string → option Z).
Context (randint : Z → Z → rng → Z * rng).
Context (choice : list string → rng → string * rng).
Implicit Types (σ : state rng) (q : request) (qs : list request).

(** The contract of [random.randint]. *)
Hypothesis randint_range :
  ∀ a b g, a ≤ b → a ≤ (randint a b g).1 ≤ b.

Lemma initial_state_valid (g : rng) : collection_valid (initial_state g).
Proof. exists []. split; [reflexivity|constructor]. Qed.

(** Every handler answers, and keeps the collection valid. *)
Lemma handle_collection_valid q σ :
  collection_valid σ →
  ∃ a σ',
    handle str_strip int_of_str randint choice q σ = Some (a, σ')
    ∧ collection_valid σ'.
Proof.
  intros (ps & Hps & Hv). destruct q as [|body| | |]; simpl.
  - rewrite (get_patients_run σ ps Hps). eexists _, _. split; [done|].
    by exists ps.
  - destruct (add_patient_total str_strip int_of_str body σ ps Hps)
      as (resp & σ' & Hrun & [[_ (p & Hp & Hn & ->)]|[_ ->]]);
      rewrite Hrun; eexists _, _; (split; [done|]).
    + exists (ps ++ [p]). split; [apply lookup_insert_eq|].
      apply Forall_app. split; [done|]. by repeat constructor.
    + by exists ps.
  - rewrite (clear_patients_run σ ps Hps). eexists _, _. split; [done|].
    exists []. split; [apply lookup_insert_eq|constructor].
  - destruct (auto_generate_run randint choice randint_range σ ps Hps)
      as (ps' & g' & Hrun & Hgen & Hnames).
    rewrite Hrun. eexists _, _. split; [done|].
    exists ps'. split; [apply lookup_insert_eq|].
    apply Forall_and. split.
    + eapply Forall_impl; [exact Hgen|]. intros p [? ?]. unfold valid. lia.
    + by apply named_by_round_nonempty with (range 8), range_8_digits.
  - destruct (decide (ps = [])) as [->|Hne].
    + rewrite (schedule_empty σ Hps). eexists _, _. split; [done|].
      by exists [].
    + destruct (schedule_nonempty σ ps Hps Hne) as (σ' & Hrun & Hps' & _).
      rewrite Hrun. eexists _, _. split; [done|]. by exists ps.
Qed.

(** X11.  Whatever requests are served from start-up, each gets an
    answer, and the collection then holds only intervals with
    [start < end] and a name that is not empty: [schedule] never hands
    the scheduler an invalid interval. *)
Theorem serve_collection_valid qs (g : rng) :
  ∃ answers σ,
    serve str_strip int_of_str randint choice qs (initial_state g) = Some (answers, σ)
    ∧ length answers = length qs
    ∧ collection_valid σ.
Proof.
  generalize (initial_state_valid g).
  generalize (initial_state g) as σ.
  induction qs as [|q qs IH]; intros σ Hσ; simpl.
  - by exists [], σ.
  - destruct (handle_collection_valid q σ Hσ) as (a & σ1 & Hrun & Hσ1).
    destruct (IH σ1 Hσ1) as (answers & σ2 & Hrest & Hlen & Hσ2).
    exists (a :: answers), σ2. unfold bind. rewrite Hrun, Hrest.
    simpl. by rewrite Hlen.
Qed.
End ServeFacts.

(** ** The further properties at concrete inputs *)

(** Decides a closed proposition by evaluation. *)
Ltac by_decide := apply (bool_decide_unpack _); vm_compute; exact I.

(** [greedy_schedule_maximum] on an input with one interval below the
    initial [last_end], against the selection [("p", 1, 5)]. *)
Lemma greedy_schedule_maximum_witness :
  Forall valid [("n", -5, -3); ("p", 1, 5); ("q", 2, 3); ("r", 4, 6)]
  ∧ [("p", 1, 5)] ⊆+ [("n", -5, -3); ("p", 1, 5); ("q", 2, 3); ("r", 4, 6)]
  ∧ Forall (λ p, -1 ≤ p_start p) [("p", 1, 5)]
  ∧ pairwise_non_overlapping [("p", 1, 5)]
  ∧ (greedy_schedule [("n", -5, -3); ("p", 1, 5); ("q", 2, 3); ("r", 4, 6)]
       ⊆+ [("n", -5, -3); ("p", 1, 5); ("q", 2, 3); ("r", 4, 6)]
     ∧ Forall (λ p, -1 ≤ p_start p)
         (greedy_schedule
            [("n", -5, -3); ("p", 1, 5); ("q", 2, 3); ("r", 4, 6)])
     ∧ pairwise_non_overlapping
         (greedy_schedule
            [("n", -5, -3); ("p", 1, 5); ("q", 2, 3); ("r", 4, 6)])
     ∧ (length [("p", 1, 5)%Z]
        ≤ length (greedy_schedule
                    [("n", -5, -3); ("p", 1, 5); ("q", 2, 3); ("r", 4, 6)]%Z))%nat).
Proof.
  assert (Forall valid
            [("n", -5, -3); ("p", 1, 5); ("q", 2, 3); ("r", 4, 6)]) as Hv.
  { repeat constructor. }
  assert ([("p", 1, 5)]
            ⊆+ [("n", -5, -3); ("p", 1, 5); ("q", 2, 3); ("r", 4, 6)]) as Hsub
    by by_decide.
  assert (Forall (λ p, -1 ≤ p_start p) [("p", 1, 5)]) as Hlo by by_decide.
  assert (pairwise_non_overlapping [("p", 1, 5)]) as Hpw.
  { simpl. split; [constructor|exact I]. }
  split; [exact Hv|]. split; [exact Hsub|]. split; [exact Hlo|].
  split; [exact Hpw|].
  exact (greedy_schedule_maximum _ _ Hv Hsub Hlo Hpw).
Defined.

(** [greedy_schedule_head]: the schedule of three begins with the one
    that ends at 3. *)
Lemma greedy_schedule_head_witness :
  Forall (λ p, -1 ≤ p_start p) [("p", 1, 5); ("q", 2, 3); ("r", 4, 6)]
  ∧ [("p", 1, 5); ("q", 2, 3); ("r", 4, 6)] ≠ []
  ∧ ∃ p, head (greedy_schedule [("p", 1, 5); ("q", 2, 3); ("r", 4, 6)])
         = Some p
         ∧ Forall (λ q, p_end p ≤ p_end q)
             [("p", 1, 5); ("q", 2, 3); ("r", 4, 6)]
         ∧ head (filter (λ q, p_end q = p_end p)
                   [("p", 1, 5); ("q", 2, 3); ("r", 4, 6)]) = Some p.
Proof.
  assert (Forall (λ p, -1 ≤ p_start p)
            [("p", 1, 5); ("q", 2, 3); ("r", 4, 6)]) as Hlo by by_decide.
  split; [exact Hlo|]. split; [discriminate|].
  apply (greedy_schedule_head _ Hlo). discriminate.
Defined.

(** [greedy_schedule_rejected_overlaps] for the rejected [("p", 1, 5)]. *)
Lemma greedy_schedule_rejected_overlaps_witness :
  Forall valid [("p", 1, 5); ("q", 2, 3); ("r", 4, 6)]
  ∧ Forall (λ q, -1 ≤ p_start q) [("p", 1, 5); ("q", 2, 3); ("r", 4, 6)]
  ∧ ("p", 1, 5) ∈ [("p", 1, 5); ("q", 2, 3); ("r", 4, 6)]
  ∧ (("p", 1, 5) ∈ greedy_schedule [("p", 1, 5); ("q", 2, 3); ("r", 4, 6)]
     ∨ ∃ a, a ∈ greedy_schedule [("p", 1, 5); ("q", 2, 3); ("r", 4, 6)]
            ∧ ¬ non_overlapping a ("p", 1, 5)).
Proof.
  assert (Forall valid [("p", 1, 5); ("q", 2, 3); ("r", 4, 6)]) as Hv.
  { repeat constructor. }
  assert (Forall (λ p, -1 ≤ p_start p)
            [("p", 1, 5); ("q", 2, 3); ("r", 4, 6)]) as Hlo by by_decide.
  assert (("p", 1, 5) ∈ [("p", 1, 5); ("q", 2, 3); ("r", 4, 6)]) as Hin
    by by_decide.
  split; [exact Hv|]. split; [exact Hlo|]. split; [exact Hin|].
  exact (greedy_schedule_rejected_overlaps _ _ Hv Hlo Hin).
Defined.

(** [greedy_schedule_monotone]: one more candidate. *)
Lemma greedy_schedule_monotone_witness :
  Forall valid [("p", 1, 5); ("q", 2, 3); ("r", 4, 6)]
  ∧ Forall (λ q, -1 ≤ p_start q) [("p", 1, 5); ("q", 2, 3); ("r", 4, 6)]
  ∧ [("p", 1, 5); ("r", 4, 6)] ⊆+ [("p", 1, 5); ("q", 2, 3); ("r", 4, 6)]
  ∧ (length (greedy_schedule [("p", 1, 5); ("r", 4, 6)]%Z)
     ≤ length (greedy_schedule [("p", 1, 5); ("q", 2, 3); ("r", 4, 6)]%Z))%nat.
Proof.
  assert (Forall valid [("p", 1, 5); ("q", 2, 3); ("r", 4, 6)]) as Hv.
  { repeat constructor. }
  assert (Forall (λ p, -1 ≤ p_start p)
            [("p", 1, 5); ("q", 2, 3); ("r", 4, 6)]) as Hlo by by_decide.
  assert ([("p", 1, 5); ("r", 4, 6)]
            ⊆+ [("p", 1, 5); ("q", 2, 3); ("r", 4, 6)]) as Hsub by by_decide.
  split; [exact Hv|]. split; [exact Hlo|]. split; [exact Hsub|].
  exact (greedy_schedule_monotone _ _ Hv Hlo Hsub).
Defined.

(** [greedy_schedule_compatible]: two intervals that touch, given in
    descending order. *)
Lemma greedy_schedule_compatible_witness :
  Forall valid [("b", 3, 5); ("a", 1, 3)]
  ∧ Forall (λ p, -1 ≤ p_start p) [("b", 3, 5); ("a", 1, 3)]
  ∧ pairwise_non_overlapping [("b", 3, 5); ("a", 1, 3)]
  ∧ greedy_schedule [("b", 3, 5); ("a", 1, 3)]
    = sorted p_end [("b", 3, 5); ("a", 1, 3)].
Proof.
  assert (Forall valid [("b", 3, 5); ("a", 1, 3)]) as Hv.
  { repeat constructor. }
  assert (Forall (λ p, -1 ≤ p_start p) [("b", 3, 5); ("a", 1, 3)]) as Hlo
    by by_decide.
  assert (pairwise_non_overlapping [("b", 3, 5); ("a", 1, 3)]) as Hpw.
  { simpl. split; [|split; [constructor|exact I]].
    constructor; [|constructor]. right. vm_compute. discriminate. }
  split; [exact Hv|]. split; [exact Hlo|]. split; [exact Hpw|].
  exact (greedy_schedule_compatible _ Hv Hlo Hpw).
Defined.

(** [greedy_schedule_Permutation]: three distinct ends, two orders. *)
Lemma greedy_schedule_Permutation_witness :
  NoDup (p_end <$> [("p", 1, 5); ("q", 2, 3); ("r", 4, 6)])
  ∧ [("p", 1, 5); ("q", 2, 3); ("r", 4, 6)]
    ≡ₚ [("r", 4, 6); ("p", 1, 5); ("q", 2, 3)]
  ∧ greedy_schedule [("p", 1, 5); ("q", 2, 3); ("r", 4, 6)]
    = greedy_schedule [("r", 4, 6); ("p", 1, 5); ("q", 2, 3)].
Proof.
  assert (NoDup (p_end <$> [("p", 1, 5); ("q", 2, 3); ("r", 4, 6)])) as Hnd
    by by_decide.
  assert ([("p", 1, 5); ("q", 2, 3); ("r", 4, 6)]
            ≡ₚ [("r", 4, 6); ("p", 1, 5); ("q", 2, 3)]) as Hperm
    by by_decide.
  split; [exact Hnd|]. split; [exact Hperm|].
  exact (greedy_schedule_Permutation _ _ Hnd Hperm).
Defined.

(** [schedule_repeatable] on a collection of three. *)
Lemma schedule_repeatable_witness :
  st_heap three_patients !! patients
  = Some [("p", 1, 5); ("q", 2, 3); ("r", 4, 6)]
  ∧ [("p", 1, 5); ("q", 2, 3); ("r", 4, 6)] ≠ []
  ∧ ∃ σ1 σ2,
      schedule three_patients
      = Some (Json 200 (JArr (patient_json <$>
                greedy_schedule [("p", 1, 5); ("q", 2, 3); ("r", 4, 6)])), σ1)
      ∧ schedule σ1
        = Some (Json 200 (JArr (patient_json <$>
                  greedy_schedule [("p", 1, 5); ("q", 2, 3); ("r", 4, 6)])), σ2)
      ∧ st_heap σ2 !! patients = Some [("p", 1, 5); ("q", 2, 3); ("r", 4, 6)]
      ∧ st_rng σ2 = st_rng three_patients.
Proof.
  split; [reflexivity|]. split; [discriminate|].
  apply (schedule_repeatable three_patients
           [("p", 1, 5); ("q", 2, 3); ("r", 4, 6)]);
    [reflexivity|discriminate].
Defined.

(** [clear_then_list_and_schedule] on a collection of three. *)
Lemma clear_then_list_and_schedule_witness :
  st_heap three_patients !! patients
  = Some [("p", 1, 5); ("q", 2, 3); ("r", 4, 6)]
  ∧ (let* a := clear_patients in
     let* b := get_patients in
     let* c := schedule in
     ret (a, b, c)) three_patients
    = Some ((Json 200 (status_body "cleared"),
             Json 200 (JArr []),
             Json 400 (error_body "No patients")),
            State (<[patients := []]> (st_heap three_patients))
                  (st_rng three_patients)).
Proof.
  split; [reflexivity|].
  apply (clear_then_list_and_schedule three_patients
           [("p", 1, 5); ("q", 2, 3); ("r", 4, 6)]).
  reflexivity.
Defined.

(** [add_then_list]: a fourth patient, with the end given as a
    boolean. *)
Lemma add_then_list_witness :
  st_heap three_patients !! patients
  = Some [("p", 1, 5); ("q", 2, 3); ("r", 4, 6)]
  ∧ ∃ σ',
      (let* a := add_patient strip_nothing (λ _, None)
                   (JObj [("name", JStr "s"); ("start", JInt 0);
                          ("end", JBool true)]) in
       let* b := get_patients in
       ret (a, b)) three_patients
      = Some ((Json 201 (status_body "ok"),
               Json 200 (JArr ((patient_json <$>
                                  [("p", 1, 5); ("q", 2, 3); ("r", 4, 6)])
                               ++ [patient_json (strip_nothing "s", 0, 1)]))),
              σ')
      ∧ st_heap σ' !! patients
        = Some ([("p", 1, 5); ("q", 2, 3); ("r", 4, 6)]
                ++ [(strip_nothing "s", 0, 1)]).
Proof.
  split; [reflexivity|].
  apply (add_then_list strip_nothing (λ _, None) three_patients
           [("p", 1, 5); ("q", 2, 3); ("r", 4, 6)]
           [("name", JStr "s"); ("start", JInt 0); ("end", JBool true)]
           "s" 0 1); try reflexivity.
  vm_compute. discriminate.
Defined.

(** [add_patient_json_round_trip] on the state at start-up. *)
Lemma add_patient_json_round_trip_witness :
  st_heap (initial_state ()) !! patients = Some []
  ∧ strip_nothing "s" = "s" ∧ "s" ≠ "" ∧ 0 < 1
  ∧ add_patient strip_nothing (λ _, None) (patient_json ("s", 0, 1))
      (initial_state ())
    = Some (Json 201 (status_body "ok"),
            State (<[patients := [] ++ [("s", 0, 1)]]>
                     (st_heap (initial_state ())))
                  (st_rng (initial_state ()))).
Proof.
  assert ("s" ≠ "") as Hne by discriminate.
  split; [reflexivity|]. split; [reflexivity|]. split; [exact Hne|].
  split; [lia|].
  apply (add_patient_json_round_trip strip_nothing (λ _, None)
           (initial_state ()) [] "s" 0 1 eq_refl eq_refl Hne). lia.
Defined.

Lemma randint_low_range a b (g : ()) :
  a ≤ b → a ≤ (randint_low a b g).1 ≤ b.
Proof. intros Hab. simpl. lia. Defined.

(** [auto_generate_names_distinct] with the draws [randint_low] and
    [choice_first]. *)
Lemma auto_generate_names_distinct_witness :
  (∀ a b g, a ≤ b → a ≤ (randint_low a b g).1 ≤ b)
  ∧ st_heap three_patients !! patients
    = Some [("p", 1, 5); ("q", 2, 3); ("r", 4, 6)]
  ∧ ∃ ps' resp g',
      auto_generate randint_low choice_first three_patients
      = Some (resp, State (<[patients := ps']> (st_heap three_patients)) g')
      ∧ NoDup (p_name <$> ps')
      ∧ Forall (λ p, p_name p ≠ "") ps'
      ∧ last_char <$> (p_name <$> ps')
        = Some <$> ["1"; "2"; "3"; "4"; "5"; "6"; "7"; "8"]%char.
Proof.
  split; [exact randint_low_range|]. split; [reflexivity|].
  apply (auto_generate_names_distinct randint_low choice_first
           randint_low_range three_patients
           [("p", 1, 5); ("q", 2, 3); ("r", 4, 6)]).
  reflexivity.
Defined.

(** [auto_then_schedule] with the draws [randint_low] and
    [choice_first]. *)
Lemma auto_then_schedule_witness :
  (∀ a b g, a ≤ b → a ≤ (randint_low a b g).1 ≤ b)
  ∧ st_heap three_patients !! patients
    = Some [("p", 1, 5); ("q", 2, 3); ("r", 4, 6)]
  ∧ ∃ ps' a σ',
      (let* a := auto_generate randint_low choice_first in
       let* b := schedule in
       ret (a, b)) three_patients
      = Some ((a, Json 200 (JArr (patient_json <$> greedy_schedule ps'))), σ')
      ∧ st_heap σ' !! patients = Some ps'
      ∧ length ps' = 8%nat
      ∧ greedy_schedule ps' ≠ []
      ∧ ∀ ys, ys ⊆+ ps' → pairwise_non_overlapping ys →
              (length ys ≤ length (greedy_schedule ps'))%nat.
Proof.
  split; [exact randint_low_range|]. split; [reflexivity|].
  apply (auto_then_schedule randint_low choice_first
           randint_low_range three_patients
           [("p", 1, 5); ("q", 2, 3); ("r", 4, 6)]).
  reflexivity.
Defined.

(** [serve_collection_valid] on a run of five requests. *)
Lemma serve_collection_valid_witness :
  (∀ a b g, a ≤ b → a ≤ (randint_low a b g).1 ≤ b)
  ∧ ∃ answers σ,
      serve strip_nothing (λ _, None) randint_low choice_first
        [AutoGenerate; Schedule; ClearPatients;
         AddPatient (JObj [("name", JStr "a"); ("start", JInt (-5));
                           ("end", JInt (-3))]);
         GetPatients]
        (initial_state ())
      = Some (answers, σ)
      ∧ length answers
        = length [AutoGenerate; Schedule; ClearPatients;
                  AddPatient (JObj [("name", JStr "a"); ("start", JInt (-5));
                                    ("end", JInt (-3))]);
                  GetPatients]
      ∧ collection_valid σ.
Proof.
  split; [exact randint_low_range|].
  apply (serve_collection_valid strip_nothing (λ _, None) randint_low
           choice_first
           randint_low_range).
Defined.

(** [add_patient_errors] on the body [null]. *)
Lemma add_patient_errors_witness :
  strip_nothing "" = ""
  ∧ py_truthy JNull = false
  ∧ add_patient strip_nothing (λ _, None) JNull three_patients
    = Some (Json 400 (error_body "Start and End must be integers"),
            three_patients).
Proof.
  split; [reflexivity|]. split; [reflexivity|].
  apply (proj1 (add_patient_errors strip_nothing (λ _, None) eq_refl
                  three_patients) JNull).
  reflexivity.
Defined.
